(** * File revision tracker: the watch mapping, its GUI front-end and the
      monitoring engine.

    The front-end ([gui.py], class [FileRevisionTracker]) is embedded from the
    source.  It keeps the watch mapping in [self.manager.FILE_PATHS], a Python
    [dict] from file path to revision directory, and shows it in a
    [ttk.Treeview].  The engine ([file_revision.FileRevisionManager]) is not
    part of the sources at hand; module [Engine] models it from the
    specification. *)

From stdpp Require Import base option list strings countable gmap fin_sets infinite.
From Stdlib.Strings Require Import Byte.


(** ** Python dictionaries

    A [dict] keeps its keys in insertion order: assigning to a key that is
    present keeps its position, assigning to a new key appends it, and [del]
    of a missing key raises [KeyError].  The order is what [items()] iterates
    in, so the model is an association list. *)
Module Dict.

Section dict.
Context {V : Type}.

Definition dict := list (string * V).

Definition items (d : dict) : list (string * V) := d.
Definition keys (d : dict) : list string := d.*1.

(** [d[k]], [None] standing for [KeyError]. *)
Fixpoint getitem (k : string) (d : dict) : option V :=
  match d with
  | [] => None
  | (k', v) :: d' => if decide (k = k') then Some v else getitem k d'
  end.

(** [d[k] = v]. *)
Fixpoint setitem (k : string) (v : V) (d : dict) : dict :=
  match d with
  | [] => [(k, v)]
  | (k', v') :: d' =>
      if decide (k = k') then (k, v) :: d' else (k', v') :: setitem k v d'
  end.

Fixpoint remove (k : string) (d : dict) : dict :=
  match d with
  | [] => []
  | (k', v') :: d' =>
      if decide (k = k') then d' else (k', v') :: remove k d'
  end.

(** [del d[k]], [None] standing for [KeyError]. *)
Definition delitem (k : string) (d : dict) : option dict :=
  match getitem k d with
  | Some _ => Some (remove k d)
  | None => None
  end.

Lemma getitem_None k d : getitem k d = None ↔ k ∉ keys d.
Proof.
  induction d as [|[k' v'] d IH]; simpl.
  - split; [intros _; apply not_elem_of_nil | done].
  - rewrite not_elem_of_cons. case_decide; [|tauto].
    split; [done | tauto].
Qed.

Lemma getitem_Some_elem k v d : getitem k d = Some v → (k, v) ∈ d.
Proof.
  induction d as [|[k' v'] d IH]; simpl; [done|].
  case_decide; intros E.
  - injection E as ->. subst. apply list_elem_of_here.
  - apply list_elem_of_further; auto.
Qed.

Lemma elem_getitem k v d : NoDup (keys d) → (k, v) ∈ d → getitem k d = Some v.
Proof.
  induction d as [|[k' v'] d IH]; simpl.
  - intros _ H. by apply elem_of_nil in H.
  - rewrite NoDup_cons. intros [Hk Hd] [E|H]%elem_of_cons.
    + injection E as -> ->. by rewrite decide_True.
    + rewrite decide_False; [auto|].
      intros ->. apply Hk. unfold keys.
      by apply (list_elem_of_fmap_2 fst) in H.
Qed.

Lemma getitem_setitem k k' v d :
  getitem k' (setitem k v d) = if decide (k' = k) then Some v else getitem k' d.
Proof.
  induction d as [|[k0 v0] d IH]; simpl.
  - by repeat case_decide.
  - destruct (decide (k = k0)) as [->|]; simpl; repeat case_decide; congruence.
Qed.

Lemma keys_setitem_in k v d : k ∈ keys d → keys (setitem k v d) = keys d.
Proof.
  induction d as [|[k0 v0] d IH]; simpl.
  - intros H. by apply elem_of_nil in H.
  - intros H. case_decide; simpl; [congruence|].
    f_equal. apply IH. apply elem_of_cons in H as [?|?]; done.
Qed.

Lemma keys_setitem_notin k v d : k ∉ keys d → keys (setitem k v d) = keys d ++ [k].
Proof.
  induction d as [|[k0 v0] d IH]; simpl; [done|].
  rewrite not_elem_of_cons. intros [? ?].
  rewrite decide_False by done. simpl. f_equal. auto.
Qed.

Lemma NoDup_setitem k v d : NoDup (keys d) → NoDup (keys (setitem k v d)).
Proof.
  intros Hd. destruct (decide (k ∈ keys d)).
  - by rewrite keys_setitem_in.
  - rewrite keys_setitem_notin by done.
    apply NoDup_app. split_and!; [done| |apply NoDup_singleton].
    intros x Hx ->%list_elem_of_singleton. done.
Qed.

Lemma length_setitem_in k v d : k ∈ keys d → length (setitem k v d) = length d.
Proof.
  intros H. apply (keys_setitem_in k v) in H.
  apply (f_equal length) in H. unfold keys in H.
  by rewrite !length_fmap in H.
Qed.

Lemma keys_remove_subseteq k d : keys (remove k d) ⊆ keys d.
Proof.
  induction d as [|[k0 v0] d IH]; simpl; [done|].
  case_decide; simpl.
  - intros x Hx. by right.
  - intros x [->|Hx]%elem_of_cons; [left|right; auto].
Qed.

Lemma NoDup_remove k d : NoDup (keys d) → NoDup (keys (remove k d)).
Proof.
  induction d as [|[k0 v0] d IH]; simpl; [done|].
  rewrite NoDup_cons. intros [Hk Hd]. case_decide; simpl; [done|].
  apply NoDup_cons. split; [|auto].
  intros H'. apply Hk. by apply (keys_remove_subseteq k).
Qed.

Lemma getitem_remove k k' d :
  NoDup (keys d) →
  getitem k' (remove k d) = if decide (k' = k) then None else getitem k' d.
Proof.
  induction d as [|[k0 v0] d IH]; simpl.
  - by case_decide.
  - rewrite NoDup_cons. intros [Hk Hd].
    destruct (decide (k = k0)) as [->|]; simpl.
    + case_decide; [subst; by apply getitem_None | done].
    + rewrite IH by done. repeat case_decide; congruence.
Qed.
End dict.

Arguments dict : clear implicits.

End Dict.

(** ** Strings

    [needle in hay] on Python strings. *)
Fixpoint str_prefix (a b : string) : bool :=
  match a, b with
  | EmptyString, _ => true
  | String x a', String y b' => if decide (x = y) then str_prefix a' b' else false
  | String _ _, EmptyString => false
  end.

Fixpoint str_in (needle hay : string) : bool :=
  str_prefix needle hay ||
  match hay with
  | EmptyString => false
  | String _ hay' => str_in needle hay'
  end.

Lemma append_String x a c : String.append (String x a) c = String x (String.append a c).
Proof. reflexivity. Qed.

Lemma str_prefix_spec a b : str_prefix a b = true ↔ ∃ c, b = String.append a c.
Proof.
  revert b. induction a as [|x a IH]; intros [|y b]; simpl.
  - split; [by exists EmptyString | done].
  - split; [by eexists | done].
  - split; [done | by intros [c ?]].
  - case_decide as E.
    + subst. rewrite IH.
      split; intros [c Hc]; exists c; rewrite append_String in *; congruence.
    + split; [done | intros [c Hc]; rewrite append_String in Hc; congruence].
Qed.

(** [str_in] decides "is a substring of". *)
Lemma str_in_spec needle hay :
  str_in needle hay = true ↔
  ∃ a c, hay = String.append a (String.append needle c).
Proof.
  induction hay as [|y hay IH]; simpl; rewrite orb_true_iff, str_prefix_spec.
  - split.
    + intros [[c Hc]|?]; [|done]. by exists EmptyString, c.
    + intros ([|? a] & c & Hc); [left; by exists c | done].
  - rewrite IH. split.
    + intros [[c Hc]|(a & c & Hc)].
      * by exists EmptyString, c.
      * exists (String y a), c. rewrite append_String. by rewrite Hc.
    + intros ([|x a] & c & Hc).
      * left. by exists c.
      * right. exists a, c. rewrite append_String in Hc. congruence.
Qed.

Lemma str_in_empty hay : str_in EmptyString hay = true.
Proof. by destruct hay. Qed.

(** [str.lower] restricted to ASCII letters, used to run the model on
    concrete inputs; the development itself is parametric in the lowering
    function. *)
Definition ascii_lower (c : Ascii.ascii) : Ascii.ascii :=
  let n := Ascii.nat_of_ascii c in
  if decide (65 ≤ n ∧ n ≤ 90) then Ascii.ascii_of_nat (n + 32) else c.

Fixpoint str_lower (s : string) : string :=
  match s with
  | EmptyString => EmptyString
  | String c s' => String (ascii_lower c) (str_lower s')
  end.

(** ** The front-end, [class FileRevisionTracker] *)
Module Gui.

Import Dict.

(** Exceptions that leave a callback. *)
Inductive exn :=
  | KeyError (k : string)
  | OSError
  | TclError.

(** The attributes of [self] that the configuration panel reads and writes:
    the shared mapping [self.manager.FILE_PATHS], the rows of [self.table] in
    display order, [self.search_var], [self._after_id], the [after] callbacks
    Tk has pending (each of them is [self.search_files]), the counter Tk
    draws the next [after] identifier from, and the rows of
    [file_config.csv]. *)
Record gui := mkGui {
  FILE_PATHS : dict string;
  table : list (string * string);
  search_var : string;
  _after_id : option nat;
  pending : list nat;
  next_after : nat;
  file_config_csv : list (list string);
}.

Definition with_FILE_PATHS (d : dict string) (g : gui) : gui :=
  mkGui d (table g) (search_var g) (_after_id g) (pending g) (next_after g)
        (file_config_csv g).
Definition with_table (t : list (string * string)) (g : gui) : gui :=
  mkGui (FILE_PATHS g) t (search_var g) (_after_id g) (pending g) (next_after g)
        (file_config_csv g).
Definition with_search_var (s : string) (g : gui) : gui :=
  mkGui (FILE_PATHS g) (table g) s (_after_id g) (pending g) (next_after g)
        (file_config_csv g).
Definition with_after (a : option nat) (p : list nat) (n : nat) (g : gui) : gui :=
  mkGui (FILE_PATHS g) (table g) (search_var g) a p n (file_config_csv g).
Definition with_csv (rows : list (list string)) (g : gui) : gui :=
  mkGui (FILE_PATHS g) (table g) (search_var g) (_after_id g) (pending g)
        (next_after g) rows.

(** Methods run on [self] and either return or raise; what they did to
    [self] before raising stays done. *)
Definition M (A : Type) : Type := gui → gui * (exn + A).

#[export] Instance M_ret : MRet M := λ A a g, (g, inr a).
#[export] Instance M_bind : MBind M := λ A B f m g,
  match m g with
  | (g', inr a) => f a g'
  | (g', inl e) => (g', inl e)
  end.

Definition raise {A} (e : exn) : M A := λ g, (g, inl e).
Definition gets {A} (f : gui → A) : M A := λ g, (g, inr (f g)).
Definition modify (f : gui → gui) : M unit := λ g, (f g, inr ()).

Fixpoint for_each {A} (l : list A) (body : A → M unit) : M unit :=
  match l with
  | [] => mret ()
  | a :: l' => body a ;; for_each l' body
  end.

(** Python truthiness of a string. *)
Definition truthy (s : string) : bool := if decide (s = EmptyString) then false else true.

Section methods.
(** [str.lower]. *)
Variable lower : string → string.

(** [for item in self.table.get_children(): self.table.delete(item)] *)
Definition table_delete_all : M unit := modify (with_table []).

(** [self.table.insert("", tk.END, values=row)] *)
Definition table_insert_end (row : string * string) : M unit :=
  modify (λ g, with_table (table g ++ [row]) g).

Definition load_file_config_data : M unit :=
  table_delete_all ;;
  d ← gets FILE_PATHS;
  for_each (items d) (λ '(path, revision_dir),
    table_insert_end (path, revision_dir)).

(** [open(config_file, mode='w')] fails when [io_ok] is [false]; otherwise
    the header and one row per item replace the file. *)
Definition write_to_csv (io_ok : bool) : M unit :=
  if io_ok then
    d ← gets FILE_PATHS;
    modify (with_csv (["file_path"; "revision_dir"] ::
                      map (λ '(path, revision_dir), [path; revision_dir]) (items d)))
  else raise OSError.

(** [file_path] is what [askopenfilename] returned (empty when cancelled),
    [revision_dir] what [askstring] returned ([None] when cancelled). *)
Definition add_file_config (file_path : string) (revision_dir : option string)
    (io_ok : bool) : M unit :=
  if truthy file_path then
    match revision_dir with
    | Some revision_dir =>
        if truthy revision_dir then
          modify (λ g, with_FILE_PATHS (setitem file_path revision_dir (FILE_PATHS g)) g) ;;
          write_to_csv io_ok ;;
          load_file_config_data
        else mret ()
    | None => mret ()
    end
  else mret ().

(** [self.table.item(selected_item, "values")] *)
Definition table_item (selected_item : nat) : M (string * string) :=
  t ← gets table;
  match t !! selected_item with
  | Some row => mret row
  | None => raise TclError
  end.

(** [selection] is [self.table.selection()], as row positions;
    [new_revision_dir] is the answer to the dialog. *)
Definition edit_file_config (selection : list nat)
    (new_revision_dir : option string) (io_ok : bool) : M unit :=
  match selection with
  | [] => mret ()
  | selected_item :: _ =>
      '(file_path, revision_dir) ← table_item selected_item;
      match new_revision_dir with
      | Some new_revision_dir =>
          if truthy new_revision_dir then
            modify (λ g, with_FILE_PATHS
                           (setitem file_path new_revision_dir (FILE_PATHS g)) g) ;;
            write_to_csv io_ok ;;
            load_file_config_data
          else mret ()
      | None => mret ()
      end
  end.

Definition delete_file_config (selection : list nat) (io_ok : bool) : M unit :=
  match selection with
  | [] => mret ()
  | selected_item :: _ =>
      '(file_path, revision_dir) ← table_item selected_item;
      d ← gets FILE_PATHS;
      match delitem file_path d with
      | Some d' => modify (with_FILE_PATHS d')
      | None => raise (KeyError file_path)
      end ;;
      write_to_csv io_ok ;;
      load_file_config_data
  end.

Definition search_files : M unit :=
  search_term ← gets (λ g, lower (search_var g));
  table_delete_all ;;
  d ← gets FILE_PATHS;
  for_each (items d) (λ '(path, revision_dir),
    if str_in search_term (lower path) || str_in search_term (lower revision_dir)
    then table_insert_end (path, revision_dir)
    else mret ()).

(** [after_cancel] of the previous identifier, then [after(300, ...)]. *)
Definition delayed_search : M unit :=
  modify (λ g,
    let p := match _after_id g with
             | Some i => filter (λ j, j ≠ i) (pending g)
             | None => pending g
             end in
    with_after (Some (next_after g)) (p ++ [next_after g]) (S (next_after g)) g).

(** [self.search_var.set(s)]; the write trace runs [delayed_search]. *)
Definition search_var_set (s : string) : M unit :=
  modify (with_search_var s) ;;
  delayed_search.

Definition reset_search : M unit :=
  search_var_set EmptyString ;;
  load_file_config_data.

(** Tk runs the [after] callback [i] once its delay has passed, if it has
    not been cancelled. *)
Definition after_fire (i : nat) : M unit :=
  p ← gets pending;
  if decide (i ∈ p) then
    modify (λ g, with_after (_after_id g) (filter (λ j, j ≠ i) p) (next_after g) g) ;;
    search_files
  else mret ().

(** What the user and the event loop can make the configuration panel do.
    (Reload Config and the Start and Stop buttons hand over to the manager
    and are not among them.) *)
Inductive action :=
  | Add (file_path : string) (revision_dir : option string) (io_ok : bool)
  | Edit (selection : list nat) (new_revision_dir : option string) (io_ok : bool)
  | Delete (selection : list nat) (io_ok : bool)
  | TypeSearch (s : string)
  | ResetSearch
  | Fire (i : nat).

Definition run_action (a : action) : M unit :=
  match a with
  | Add p d io => add_file_config p d io
  | Edit sel d io => edit_file_config sel d io
  | Delete sel io => delete_file_config sel io
  | TypeSearch s => search_var_set s
  | ResetSearch => reset_search
  | Fire i => after_fire i
  end.

(** [mainloop]: an exception in a callback is reported and the loop goes
    on with the state the callback left. *)
Definition mainloop (acts : list action) (g : gui) : gui :=
  foldl (λ g a, (run_action a g).1) g acts.

End methods.

(** *** What the callbacks compute *)

Ltac munfold :=
  unfold mbind, M_bind, mret, M_ret, raise, gets, modify,
    table_delete_all, table_insert_end in *; simpl in *.

(** The rows a search for [search_term] keeps, as [search_files] tests them. *)
Definition matches (lower : string → string) (search_term : string)
    (row : string * string) : bool :=
  str_in search_term (lower row.1) || str_in search_term (lower row.2).

(** [a] occurs in [b]. *)
Definition substring (a b : string) : Prop :=
  ∃ x y, b = String.append x (String.append a y).

Lemma for_each_insert (rows : list (string * string)) (g : gui) :
  for_each rows (λ '(path, revision_dir), table_insert_end (path, revision_dir)) g
  = (with_table (table g ++ rows) g, inr ()).
Proof.
  revert g. induction rows as [|[p d] rows IH]; intros g.
  - destruct g. munfold. unfold with_table. simpl. by rewrite app_nil_r.
  - simpl. munfold. rewrite IH. unfold with_table. simpl.
    by rewrite <- app_assoc.
Qed.

Lemma for_each_insert_if (P : string * string → bool)
    (rows : list (string * string)) (g : gui) :
  for_each rows (λ '(path, revision_dir),
    if P (path, revision_dir) then table_insert_end (path, revision_dir)
    else mret ()) g
  = (with_table (table g ++ filter P rows) g, inr ()).
Proof.
  revert g. induction rows as [|[p d] rows IH]; intros g.
  - destruct g. munfold. unfold with_table. simpl. by rewrite app_nil_r.
  - rewrite filter_cons. cbn [for_each].
    destruct (P (p, d)) eqn:E.
    + unfold mbind, M_bind, table_insert_end, modify.
      rewrite IH. unfold with_table. simpl. by rewrite <- app_assoc.
    + unfold mbind, M_bind, mret, M_ret. by rewrite IH.
Qed.

Lemma load_file_config_data_spec (g : gui) :
  load_file_config_data g = (with_table (items (FILE_PATHS g)) g, inr ()).
Proof.
  unfold load_file_config_data. munfold. by rewrite for_each_insert.
Qed.

Lemma search_files_spec lower (g : gui) :
  search_files lower g =
  (with_table (filter (matches lower (lower (search_var g))) (items (FILE_PATHS g))) g,
   inr ()).
Proof.
  unfold search_files. munfold.
  by rewrite (for_each_insert_if (matches lower (lower (search_var g)))).
Qed.

Lemma write_to_csv_FILE_PATHS io g :
  FILE_PATHS (write_to_csv io g).1 = FILE_PATHS g ∧
  table (write_to_csv io g).1 = table g.
Proof. by destruct io. Qed.

Lemma filter_all {A} (P : A → bool) (l : list A) :
  (∀ x, P x = true) → filter P l = l.
Proof.
  intros HP. induction l as [|a l IH]; [done|].
  rewrite filter_cons, HP. simpl. by rewrite IH.
Qed.

Lemma matches_empty lower row : matches lower EmptyString row = true.
Proof. unfold matches. by rewrite str_in_empty. Qed.

Lemma add_file_config_spec path dir io g :
  truthy path = true → truthy dir = true →
  add_file_config path (Some dir) io g =
  let g1 := with_FILE_PATHS (setitem path dir (FILE_PATHS g)) g in
  if io then
    (with_table (items (FILE_PATHS g1))
       (with_csv (["file_path"; "revision_dir"] ::
                  map (λ '(p, d), [p; d]) (items (FILE_PATHS g1))) g1), inr ())
  else (g1, inl OSError).
Proof.
  intros Hp Hd. unfold add_file_config. rewrite Hp, Hd.
  destruct io; munfold; [|done]. by rewrite load_file_config_data_spec.
Qed.

Lemma edit_file_config_spec i sel path old dir io g :
  table g !! i = Some (path, old) → truthy dir = true →
  edit_file_config (i :: sel) (Some dir) io g =
  let g1 := with_FILE_PATHS (setitem path dir (FILE_PATHS g)) g in
  if io then
    (with_table (items (FILE_PATHS g1))
       (with_csv (["file_path"; "revision_dir"] ::
                  map (λ '(p, d), [p; d]) (items (FILE_PATHS g1))) g1), inr ())
  else (g1, inl OSError).
Proof.
  intros Hi Hd. unfold edit_file_config, table_item. munfold. rewrite Hi. simpl.
  rewrite Hd. destruct io; munfold; [|done]. by rewrite load_file_config_data_spec.
Qed.

Lemma delete_file_config_absent i sel path old io g :
  table g !! i = Some (path, old) → getitem path (FILE_PATHS g) = None →
  delete_file_config (i :: sel) io g = (g, inl (KeyError path)).
Proof.
  intros Hi Hp. unfold delete_file_config, table_item, delitem. munfold.
  rewrite Hi. simpl. by rewrite Hp.
Qed.

(** Every callback leaves the mapping as it was, assigns one key or deletes
    one key. *)
Lemma run_action_FILE_PATHS lower a g :
  FILE_PATHS (run_action lower a g).1 = FILE_PATHS g ∨
  (∃ k v, FILE_PATHS (run_action lower a g).1 = setitem k v (FILE_PATHS g)) ∨
  (∃ k, FILE_PATHS (run_action lower a g).1 = remove k (FILE_PATHS g)).
Proof.
  destruct a as [p od io|sel od io|sel io|s| |i]; simpl.
  - unfold add_file_config. destruct (truthy p) eqn:Hp; [|by left].
    destruct od as [d|]; [|by left]. destruct (truthy d) eqn:Hd; [|by left].
    right; left. exists p, d.
    destruct io; munfold; [|done]. by rewrite load_file_config_data_spec.
  - destruct sel as [|i sel]; [by left|].
    unfold edit_file_config, table_item. munfold.
    destruct (table g !! i) as [[p old]|]; simpl; [|by left].
    destruct od as [d|]; [|by left]. destruct (truthy d) eqn:Hd; [|by left].
    right; left. exists p, d.
    destruct io; munfold; [|done]. by rewrite load_file_config_data_spec.
  - destruct sel as [|i sel]; [by left|].
    unfold delete_file_config, table_item, delitem. munfold.
    destruct (table g !! i) as [[p old]|]; simpl; [|by left].
    destruct (getitem p (FILE_PATHS g)); simpl; [|by left].
    right; right. exists p.
    destruct io; munfold; [|done]. by rewrite load_file_config_data_spec.
  - by left.
  - left. unfold reset_search, search_var_set, delayed_search. munfold.
    by rewrite load_file_config_data_spec.
  - left. unfold after_fire. munfold. case_decide; [|done].
    by rewrite search_files_spec.
Qed.

Lemma mainloop_NoDup lower acts g :
  NoDup (keys (FILE_PATHS g)) → NoDup (keys (FILE_PATHS (mainloop lower acts g))).
Proof.
  revert g. induction acts as [|a acts IH]; intros g Hg; [done|].
  simpl. apply IH.
  destruct (run_action_FILE_PATHS lower a g) as [->|[(k & v & ->)|(k & ->)]];
    auto using NoDup_setitem, NoDup_remove.
Qed.

(** *** The watch mapping under the configuration panel *)

(** C8.  The mapping holds at most one entry per path, whatever the user
    does: after any sequence of callbacks the paths of [FILE_PATHS] are
    pairwise distinct.  Adding a path, or editing the selected row's path,
    makes the mapping send that path to the directory given last; when the
    path was registered already its entry is replaced where it stands (the
    list of paths is the same), and the other paths keep their directories. *)
Theorem FILE_PATHS_one_entry_per_path lower (acts : list action) (g : gui) :
  NoDup (keys (FILE_PATHS g)) →
  NoDup (keys (FILE_PATHS (mainloop lower acts g))) ∧
  (∀ path dir io, truthy path = true → truthy dir = true →
     let g' := (add_file_config path (Some dir) io g).1 in
     NoDup (keys (FILE_PATHS g')) ∧
     getitem path (FILE_PATHS g') = Some dir ∧
     (path ∈ keys (FILE_PATHS g) → keys (FILE_PATHS g') = keys (FILE_PATHS g)) ∧
     (∀ q, q ≠ path → getitem q (FILE_PATHS g') = getitem q (FILE_PATHS g))) ∧
  (∀ i sel path old dir io, table g !! i = Some (path, old) → truthy dir = true →
     let g' := (edit_file_config (i :: sel) (Some dir) io g).1 in
     NoDup (keys (FILE_PATHS g')) ∧
     getitem path (FILE_PATHS g') = Some dir ∧
     (path ∈ keys (FILE_PATHS g) → keys (FILE_PATHS g') = keys (FILE_PATHS g)) ∧
     (∀ q, q ≠ path → getitem q (FILE_PATHS g') = getitem q (FILE_PATHS g))).
Proof.
  intros Hg. split; [by apply mainloop_NoDup|].
  assert (∀ path dir io,
    let g1 := with_FILE_PATHS (setitem path dir (FILE_PATHS g)) g in
    let r := if io : bool then
        (with_table (items (FILE_PATHS g1))
           (with_csv (["file_path"; "revision_dir"] ::
                      map (λ '(p, d), [p; d]) (items (FILE_PATHS g1))) g1), inr ())
      else (g1, @inl exn unit OSError) in
    NoDup (keys (FILE_PATHS r.1)) ∧
    getitem path (FILE_PATHS r.1) = Some dir ∧
    (path ∈ keys (FILE_PATHS g) → keys (FILE_PATHS r.1) = keys (FILE_PATHS g)) ∧
    (∀ q, q ≠ path → getitem q (FILE_PATHS r.1) = getitem q (FILE_PATHS g)))
    as Hset.
  { intros path dir io g1 r.
    assert (FILE_PATHS r.1 = setitem path dir (FILE_PATHS g)) as -> by by destruct io.
    split_and!.
    - by apply NoDup_setitem.
    - by rewrite getitem_setitem, decide_True.
    - apply keys_setitem_in.
    - intros q Hq. by rewrite getitem_setitem, decide_False. }
  split.
  - intros path dir io Hp Hd. cbv zeta. rewrite add_file_config_spec by done.
    apply Hset.
  - intros i sel path old dir io Hi Hd. cbv zeta.
    rewrite (edit_file_config_spec _ _ _ _ _ _ _ Hi Hd). apply Hset.
Qed.

Definition two_files : gui :=
  mkGui [("/data/report.txt", "revs/report"); ("/src/main.py", "Backup")]
        [("/data/report.txt", "revs/report"); ("/src/main.py", "Backup")]
        EmptyString None [] 0 [].

Lemma FILE_PATHS_one_entry_per_path_witness :
  NoDup (keys (FILE_PATHS two_files)) ∧
  NoDup (keys (FILE_PATHS (mainloop str_lower
    [Add "/data/report.txt" (Some "revs/r2") true; Edit [1] (Some "old") true;
     Delete [0] true; Add "/src/main.py" (Some "again") false] two_files))).
Proof.
  assert (NoDup (keys (FILE_PATHS two_files))) as H.
  { apply (bool_decide_unpack _). vm_compute. exact I. }
  split; [exact H|].
  exact (proj1 (FILE_PATHS_one_entry_per_path str_lower _ two_files H)).
Defined.

(** C7, as the code has it.  When the selected row names a path that the
    mapping does not hold, Delete raises [KeyError] out of the callback
    itself and leaves the mapping, the table and the configuration file as
    they were; Edit does not fail for the missing path: it adds the path to
    the mapping with the directory entered (the callback raises only when the
    configuration file cannot be written, after the mapping has changed). *)
Theorem remove_absent_raises_update_absent_inserts (g : gui) i path old :
  table g !! i = Some (path, old) →
  getitem path (FILE_PATHS g) = None →
  (∀ sel io, delete_file_config (i :: sel) io g = (g, inl (KeyError path))) ∧
  (∀ sel dir io, truthy dir = true →
     let r := edit_file_config (i :: sel) (Some dir) io g in
     FILE_PATHS r.1 = FILE_PATHS g ++ [(path, dir)] ∧
     getitem path (FILE_PATHS r.1) = Some dir ∧
     r.2 = if io then inr () else inl OSError).
Proof.
  intros Hi Hp. split.
  - intros sel io. by apply delete_file_config_absent with old.
  - intros sel dir io Hd. cbv zeta.
    rewrite (edit_file_config_spec _ _ _ _ _ _ _ Hi Hd).
    assert (setitem path dir (FILE_PATHS g) = FILE_PATHS g ++ [(path, dir)]) as Happ.
    { apply getitem_None in Hp. clear Hi. induction (FILE_PATHS g) as [|[k v] d IH]; [done|].
      simpl in *. apply not_elem_of_cons in Hp as [? ?].
      rewrite decide_False by done. f_equal. auto. }
    destruct io; simpl; rewrite Happ; split_and!; try done;
      rewrite <- Happ; by rewrite getitem_setitem, decide_True.
Qed.

(** The table still shows a row whose path has left the mapping: the user
    deleted the row while [file_config.csv] could not be written, so the
    callback stopped before it reloaded the table. *)
Definition stale_row : gui :=
  mainloop str_lower [Delete [0] false] two_files.

Lemma remove_absent_raises_update_absent_inserts_witness :
  (table stale_row !! 0 = Some ("/data/report.txt", "revs/report") ∧
   getitem "/data/report.txt" (FILE_PATHS stale_row) = None) ∧
  delete_file_config [0] true stale_row = (stale_row, inl (KeyError "/data/report.txt")) ∧
  getitem "/data/report.txt"
    (FILE_PATHS (edit_file_config [0] (Some "revs/new") true stale_row).1)
  = Some "revs/new".
Proof.
  assert (table stale_row !! 0 = Some ("/data/report.txt", "revs/report")) as Hi
    by reflexivity.
  assert (getitem "/data/report.txt" (FILE_PATHS stale_row) = None) as Hp
    by reflexivity.
  split; [by split|].
  destruct (remove_absent_raises_update_absent_inserts stale_row 0 _ _ Hi Hp)
    as [Hdel Hedit].
  split; [apply Hdel|].
  exact (proj1 (proj2 (Hedit [] "revs/new" true eq_refl))).
Defined.

(** C7 as stated fails for update: the path of the selected row is not in
    the mapping, and Edit returns normally with the path added. *)
Lemma update_absent_path_counterexample :
  getitem "/data/report.txt" (FILE_PATHS stale_row) = None ∧
  (edit_file_config [0] (Some "revs/new") true stale_row).2 = inr () ∧
  FILE_PATHS (edit_file_config [0] (Some "revs/new") true stale_row).1
  = [("/src/main.py", "Backup"); ("/data/report.txt", "revs/new")].
Proof. by vm_compute. Qed.

(** *** The search box *)

(** C10.  When the debounced search runs ([search_files], called by the
    pending [after] callback), the table holds exactly the rows of the
    mapping, in its order, whose lowercased path or lowercased revision
    directory contains the lowercased search term; so it does after a term is
    typed and the callback scheduled for it has run.  Reset empties the
    search term and puts the whole mapping back in the table, and the search
    it schedules (for the empty term) shows the whole mapping as well. *)
Theorem search_table_exactly_matching lower (g : gui) (s : string) :
  lower EmptyString = EmptyString →
  let typed := mainloop lower [TypeSearch s; Fire (next_after g)] g in
  let reset := mainloop lower [ResetSearch] g in
  let reset_fired := mainloop lower [ResetSearch; Fire (next_after g)] g in
  table (search_files lower g).1
    = filter (matches lower (lower (search_var g))) (items (FILE_PATHS g)) ∧
  (∀ i, i ∈ pending g →
     table (after_fire lower i g).1
     = filter (matches lower (lower (search_var g))) (items (FILE_PATHS g))) ∧
  table typed = filter (matches lower (lower s)) (items (FILE_PATHS g)) ∧
  (∀ path revision_dir,
     (path, revision_dir) ∈ table typed ↔
     (path, revision_dir) ∈ items (FILE_PATHS g) ∧
     (substring (lower s) (lower path) ∨ substring (lower s) (lower revision_dir))) ∧
  table reset = items (FILE_PATHS g) ∧
  search_var reset = EmptyString ∧
  table reset_fired = items (FILE_PATHS g).
Proof.
  intros Hlower typed reset reset_fired.
  assert (table typed = filter (matches lower (lower s)) (items (FILE_PATHS g)))
    as Htyped.
  { subst typed. simpl. unfold search_var_set, delayed_search, after_fire. munfold.
    rewrite decide_True by (apply elem_of_app; right; apply list_elem_of_here).
    by rewrite search_files_spec. }
  split_and!.
  - by rewrite search_files_spec.
  - intros i Hi. unfold after_fire. munfold. rewrite decide_True by done.
    by rewrite search_files_spec.
  - done.
  - intros path revision_dir. rewrite Htyped, list_elem_of_filter.
    unfold matches, substring. simpl.
    rewrite <- !str_in_spec, <- orb_true_iff.
    destruct (_ || _); simpl; intuition congruence.
  - subst reset. simpl. unfold reset_search, search_var_set, delayed_search. munfold.
    by rewrite load_file_config_data_spec.
  - subst reset. simpl. unfold reset_search, search_var_set, delayed_search. munfold.
    by rewrite load_file_config_data_spec.
  - subst reset_fired. simpl.
    unfold reset_search, search_var_set, delayed_search, after_fire. munfold.
    rewrite load_file_config_data_spec. simpl.
    rewrite decide_True by (apply elem_of_app; right; apply list_elem_of_here).
    rewrite search_files_spec. simpl. rewrite Hlower.
    apply filter_all, matches_empty.
Qed.

Lemma search_table_exactly_matching_witness :
  str_lower EmptyString = EmptyString ∧
  table (mainloop str_lower [TypeSearch "BACK"; Fire 0] two_files)
  = filter (matches str_lower (str_lower "BACK")) (items (FILE_PATHS two_files)).
Proof.
  split; [reflexivity|].
  exact (proj1 (proj2 (proj2
           (search_table_exactly_matching str_lower two_files "BACK" eq_refl)))).
Defined.

End Gui.

(** ** The monitoring engine

    [gui.py] drives the engine through [self.manager]
    ([FileRevisionManager], module [file_revision]), whose source is not at
    hand.  Its components are modelled here from the specification: the
    WatchSet, the ChangeDetector, the RevisionWriter, the MonitorLoop and the
    LifecycleController. *)
Module Engine.

Import Dict.

#[export] Instance byte_eq_dec : EqDecision byte := Byte.byte_eq_dec.

Definition content := list byte.
Definition timestamp := nat.

Inductive error := NotFoundError | ReadError | WriteError.

(** *** The revision directories on disk *)

(** Names inside a revision directory: temporary files of the writer, and
    revisions, named from the base name of the watched path, the timestamp
    and a disambiguating suffix ([0] for none). *)
Inductive fname :=
  | Tmp (n : nat)
  | Rev (base : string) (ts : timestamp) (suffix : nat).

#[export] Instance fname_eq_dec : EqDecision fname.
Proof. solve_decision. Defined.

#[export] Instance fname_countable : Countable fname.
Proof.
  refine (inj_countable'
    (λ n, match n with Tmp k => inl k | Rev b t k => inr (b, t, k) end)
    (λ x, match x with inl k => Tmp k | inr (b, t, k) => Rev b t k end) _).
  by intros [].
Defined.

(** The directories that exist and the files in them, by directory and
    name. *)
Record fs := mkFs {
  dirs : gset string;
  files : gmap (string * fname) content;
}.

(** The steps a writer takes on the disk; a reader may look between any two
    of them. *)
Inductive fsop :=
  | Mkdir (d : string)
  | Create (d : string) (n : fname)
  | Append (d : string) (n : fname) (b : byte)
  | Rename (d : string) (src dst : fname).

Definition apply_op (o : fsop) (s : fs) : fs :=
  match o with
  | Mkdir d => mkFs ({[d]} ∪ dirs s) (files s)
  | Create d n => mkFs (dirs s) (<[(d, n) := []]> (files s))
  | Append d n b => mkFs (dirs s) (alter (λ c, c ++ [b]) (d, n) (files s))
  | Rename d src dst =>
      match files s !! (d, src) with
      | Some c => mkFs (dirs s) (<[(d, dst) := c]> (delete (d, src) (files s)))
      | None => s
      end
  end.

Definition run_ops (ops : list fsop) (s : fs) : fs :=
  foldl (λ s o, apply_op o s) s ops.

Definition slash : Ascii.ascii := Ascii.ascii_of_nat 47.

(** [os.path.basename]. *)
Fixpoint basename (path : string) : string :=
  match path with
  | EmptyString => EmptyString
  | String c rest =>
      if str_in "/" rest then basename rest
      else if decide (c = slash) then rest else String c rest
  end.

(** The suffixes taken in [d] by revisions of [base] at [ts]. *)
Definition used_suffixes (d base : string) (ts : timestamp) (s : fs) : gset nat :=
  set_omap (λ dn : string * fname,
    match dn.2 with
    | Rev b t k => if decide (dn.1 = d ∧ b = base ∧ t = ts) then Some k else None
    | Tmp _ => None
    end) (dom (files s)).

Definition used_tmp (d : string) (s : fs) : gset nat :=
  set_omap (λ dn : string * fname,
    match dn.2 with
    | Tmp k => if decide (dn.1 = d) then Some k else None
    | Rev _ _ _ => None
    end) (dom (files s)).

(** Modelled from the spec: the naming scheme of RevisionWriter (section
    4.3), "derived from path's base name plus timestamp [...]; on a naming
    collision, appends a disambiguating suffix rather than overwriting". *)
Definition revision_name (path revisionDir : string) (ts : timestamp) (s : fs) : fname :=
  if decide ((revisionDir, Rev (basename path) ts 0) ∈ dom (files s))
  then Rev (basename path) ts (fresh (used_suffixes revisionDir (basename path) ts s))
  else Rev (basename path) ts 0.

Definition temp_name (revisionDir : string) (s : fs) : fname :=
  Tmp (fresh (used_tmp revisionDir s)).

(** Modelled from the spec: the steps of RevisionWriter.write (section 4.3):
    it "ensures revisionDir exists", "writes content to a temporary file
    inside revisionDir first, then atomically renames it to its final
    name".  The content goes to the temporary file byte by byte, the finest
    grain a reader could observe. *)
Definition write_ops (revisionDir : string) (tmp final : fname) (c : content)
    : list fsop :=
  [Mkdir revisionDir; Create revisionDir tmp] ++
  (Append revisionDir tmp <$> c) ++
  [Rename revisionDir tmp final].

Definition write_plan (path revisionDir : string) (c : content) (ts : timestamp)
    (s : fs) : list fsop :=
  write_ops revisionDir (temp_name revisionDir s)
            (revision_name path revisionDir ts s) c.

(** Modelled from the spec: RevisionWriter.write (section 4.3),
    [write(path, revisionDir, content, timestamp) -> (revisionFilePath,
    error)], which "fails with WriteError on any I/O failure".  [failure] is
    the step at which the disk fails, if it does: the steps before it have
    taken place. *)
Definition write (path revisionDir : string) (c : content) (ts : timestamp)
    (failure : option nat) (s : fs) : fs * (error + fname) :=
  let ops := write_plan path revisionDir c ts s in
  match failure with
  | Some k =>
      if decide (k < length ops) then (run_ops (take k ops) s, inl WriteError)
      else (run_ops ops s, inr (revision_name path revisionDir ts s))
  | None => (run_ops ops s, inr (revision_name path revisionDir ts s))
  end.

(** *** What a write leaves on disk, step by step *)

Lemma run_ops_app a b s : run_ops (a ++ b) s = run_ops b (run_ops a s).
Proof. apply foldl_app. Qed.

Lemma run_ops_cons o ops s : run_ops (o :: ops) s = run_ops ops (apply_op o s).
Proof. reflexivity. Qed.

Lemma run_appends (d : string) (n : fname) (l c0 : content) (dd : gset string)
    (m : gmap (string * fname) content) :
  run_ops (Append d n <$> l) (mkFs dd (<[(d, n) := c0]> m))
  = mkFs dd (<[(d, n) := c0 ++ l]> m).
Proof.
  revert c0. induction l as [|b l IH]; intros c0.
  - simpl. by rewrite app_nil_r.
  - rewrite fmap_cons, run_ops_cons. cbn [apply_op dirs files].
    rewrite alter_insert_eq, IH. by rewrite <- app_assoc.
Qed.

(** The disk after the first [k] steps of a write: untouched, directory
    made, a prefix of the content in the temporary file, or the complete
    content under the final name. *)
Lemma write_prefix_states d tmp final (c : content) s k :
  let s' := run_ops (take k (write_ops d tmp final c)) s in
  (k = 0 ∧ s' = s) ∨
  (k = 1 ∧ s' = mkFs ({[d]} ∪ dirs s) (files s)) ∨
  (∃ i, k = 2 + i ∧ i ≤ length c ∧
        s' = mkFs ({[d]} ∪ dirs s) (<[(d, tmp) := take i c]> (files s))) ∨
  (3 + length c ≤ k ∧
   s' = mkFs ({[d]} ∪ dirs s)
             (<[(d, final) := c]> (delete (d, tmp) (<[(d, tmp) := c]> (files s))))).
Proof.
  intros s'. subst s'. unfold write_ops.
  destruct k as [|[|i]]; [left; by destruct s | right; left; done |].
  right; right.
  change (take (S (S i)) ([Mkdir d; Create d tmp] ++
                          (Append d tmp <$> c) ++ [Rename d tmp final]))
    with (Mkdir d :: Create d tmp ::
          take i ((Append d tmp <$> c) ++ [Rename d tmp final])).
  rewrite !run_ops_cons. cbn [apply_op dirs files].
  destruct (decide (i ≤ length c)) as [Hi|Hi].
  - left. exists i. split_and!; [done..|].
    rewrite take_app_le by (by rewrite length_fmap).
    rewrite <- fmap_take. by rewrite (run_appends d tmp _ []).
  - right. split; [lia|].
    rewrite take_ge by (rewrite length_app, length_fmap; simpl; lia).
    rewrite run_ops_app, (run_appends d tmp _ []). simpl.
    by rewrite lookup_insert_eq.
Qed.

Lemma revision_name_is_Rev path d ts s :
  ∃ k, revision_name path d ts s = Rev (basename path) ts k.
Proof. unfold revision_name. case_decide; eauto. Qed.

Lemma revision_name_fresh path d ts s :
  files s !! (d, revision_name path d ts s) = None.
Proof.
  unfold revision_name. case_decide as Hin.
  - apply not_elem_of_dom. intros Hdom.
    apply (is_fresh (used_suffixes d (basename path) ts s)).
    unfold used_suffixes. apply elem_of_set_omap.
    eexists. split; [exact Hdom|]. simpl. by rewrite decide_True.
  - by apply not_elem_of_dom.
Qed.

(** After any number of steps of a write, each revision name holds what it
    held before, or it is the name being written and holds all of the
    content. *)
Lemma write_prefix_revisions path revisionDir c ts s k d base t j :
  let s' := run_ops (take k (write_plan path revisionDir c ts s)) s in
  files s' !! (d, Rev base t j) = files s !! (d, Rev base t j) ∨
  ((d, Rev base t j) = (revisionDir, revision_name path revisionDir ts s) ∧
   files s' !! (d, Rev base t j) = Some c).
Proof.
  intros s'. subst s'. unfold write_plan.
  destruct (write_prefix_states revisionDir (temp_name revisionDir s)
              (revision_name path revisionDir ts s) c s k)
    as [[_ ->]|[[_ ->]|[(i & _ & _ & ->)|[_ ->]]]]; simpl; [by left..| |].
  - left. by rewrite lookup_insert_ne.
  - destruct (decide ((revisionDir, revision_name path revisionDir ts s)
                      = (d, Rev base t j))) as [E|E].
    + right. rewrite <- E. by rewrite lookup_insert_eq.
    + left. rewrite lookup_insert_ne by done.
      rewrite lookup_delete_ne by done. by rewrite lookup_insert_ne.
Qed.

Lemma write_result_prefix path revisionDir c ts failure s :
  ∃ k, (write path revisionDir c ts failure s).1
       = run_ops (take k (write_plan path revisionDir c ts s)) s.
Proof.
  unfold write. destruct failure as [k|].
  - case_decide; [by exists k|].
    exists (length (write_plan path revisionDir c ts s)). by rewrite take_ge.
  - exists (length (write_plan path revisionDir c ts s)). by rewrite take_ge.
Qed.

(** A write never changes a revision that is on disk. *)
Lemma write_keeps_revisions path revisionDir c ts failure s d base t j c0 :
  files s !! (d, Rev base t j) = Some c0 →
  files (write path revisionDir c ts failure s).1 !! (d, Rev base t j) = Some c0.
Proof.
  intros H0.
  destruct (write_result_prefix path revisionDir c ts failure s) as [k ->].
  destruct (write_prefix_revisions path revisionDir c ts s k d base t j)
    as [->|[E _]]; [done|].
  rewrite E, revision_name_fresh in H0. done.
Qed.

Lemma write_ok_stores path revisionDir c ts failure s name :
  (write path revisionDir c ts failure s).2 = inr name →
  name = revision_name path revisionDir ts s ∧
  files (write path revisionDir c ts failure s).1 !! (revisionDir, name) = Some c.
Proof.
  assert (files (run_ops (write_plan path revisionDir c ts s) s)
            !! (revisionDir, revision_name path revisionDir ts s) = Some c) as Hfull.
  { unfold write_plan.
    destruct (write_prefix_states revisionDir (temp_name revisionDir s)
                (revision_name path revisionDir ts s) c s
                (length (write_ops revisionDir (temp_name revisionDir s)
                           (revision_name path revisionDir ts s) c)))
      as [[E _]|[[E _]|[(i & E & Hi & _)|[_ Hs]]]].
    - unfold write_ops in E. simpl in E. lia.
    - unfold write_ops in E. simpl in E.
      rewrite length_app, length_fmap in E. simpl in E. lia.
    - unfold write_ops in E. simpl in E.
      rewrite length_app, length_fmap in E. simpl in E. lia.
    - rewrite take_ge in Hs by done. rewrite Hs. simpl.
      by rewrite lookup_insert_eq. }
  unfold write. destruct failure as [k|]; [case_decide|]; simpl; intros E;
    try done; injection E as <-; done.
Qed.

(** *** The watch set *)

(** Modelled from the spec: WatchEntry (section 3); [path] is the key under
    which the entry is stored. *)
Record WatchEntry (Fp : Type) := mkEntry {
  revisionDir : string;
  lastFingerprint : option Fp;
  lastCheckedAt : option timestamp;
}.
Arguments mkEntry {Fp}.
Arguments revisionDir {Fp}.
Arguments lastFingerprint {Fp}.
Arguments lastCheckedAt {Fp}.

Module WatchSet.

(** Apply [f] to the entry of [path], if there is one. *)
Definition refresh {Fp} (f : WatchEntry Fp → WatchEntry Fp) (path : string)
    (ws : dict (WatchEntry Fp)) : dict (WatchEntry Fp) :=
  match getitem path ws with
  | Some e => setitem path (f e) ws
  | None => ws
  end.

(** Modelled from the spec: WatchSet.add (section 4.1); an entry starts with
    no fingerprint, and adding a registered path replaces its mapping ("last
    write wins on add/edit"). *)
Definition add {Fp} (path revisionDir : string) (ws : dict (WatchEntry Fp))
    : dict (WatchEntry Fp) :=
  match getitem path ws with
  | Some e => setitem path (mkEntry revisionDir (lastFingerprint e) (lastCheckedAt e)) ws
  | None => setitem path (mkEntry revisionDir None None) ws
  end.

(** Modelled from the spec: WatchSet.update (section 4.1), which "fails with
    NotFoundError if remove/update targets a path not present". *)
Definition update {Fp} (path revisionDir : string) (ws : dict (WatchEntry Fp))
    : error + dict (WatchEntry Fp) :=
  match getitem path ws with
  | Some e =>
      inr (setitem path (mkEntry revisionDir (lastFingerprint e) (lastCheckedAt e)) ws)
  | None => inl NotFoundError
  end.

(** Modelled from the spec: WatchSet.snapshot (section 4.1), "a consistent
    point-in-time copy" in the order of the set. *)
Definition snapshot {Fp} (ws : dict (WatchEntry Fp)) : list (string * WatchEntry Fp) :=
  items ws.

(** Modelled from the spec: WatchSet.replaceAll (section 4.1) for bulk
    reload; the entries of paths that stay keep their detection state
    (section 2, "without losing in-flight detection state unnecessarily"). *)
Definition replaceAll {Fp} (entries : list (string * string))
    (ws : dict (WatchEntry Fp)) : dict (WatchEntry Fp) :=
  foldl (λ acc pd,
           let e := match getitem pd.1 ws with
                    | Some e => mkEntry pd.2 (lastFingerprint e) (lastCheckedAt e)
                    | None => mkEntry pd.2 None None
                    end in
           setitem pd.1 e acc) [] entries.

(** Modelled from the spec: WatchSet.remove (section 4.1). *)
Definition remove {Fp} (path : string) (ws : dict (WatchEntry Fp))
    : error + dict (WatchEntry Fp) :=
  match delitem path ws with
  | Some ws' => inr ws'
  | None => inl NotFoundError
  end.

End WatchSet.

(** *** Events, the environment of a cycle, the engine *)

Inductive event :=
  | LoopStarted
  | LoopStopped
  | ChangeDetected (path : string)
  | RevisionWritten (path revisionDir : string) (name : fname)
  | EntryError (path : string) (err : error).

(** What a cycle meets outside the engine: the clock, the watched files as
    they can be read ([None]: missing, locked, permission denied), and for
    each path the step at which writing its revision fails, if it does. *)
Record env := mkEnv {
  now : timestamp;
  read_file : string → option content;
  write_failure : string → option nat;
}.

Record engine (Fp : Type) := mkEngine {
  watch : dict (WatchEntry Fp);
  running : bool;
  disk : fs;
}.
Arguments mkEngine {Fp}.
Arguments watch {Fp}.
Arguments running {Fp}.
Arguments disk {Fp}.

Section engine.
Context {Fp : Type} `{!EqDecision Fp}.

(** The fingerprint strategy, a function of the file's content. *)
Variable fingerprint : content → Fp.

(** Modelled from the spec: ChangeDetector.check (section 4.2),
    [check(entry) -> (changed, newFingerprint, content, error)]: it reads
    the file once, "changed is true if newFingerprint != entry.lastFingerprint",
    and an unreadable file is a [ReadError].  Of the two first-observation
    policies the specification leaves open, this is the one of its scenario
    (section 8): an entry without a fingerprint is revisioned on first
    sight. *)
Definition check (ev : env) (path : string) (entry : WatchEntry Fp)
    : error + (bool * Fp * content) :=
  match read_file ev path with
  | None => inl ReadError
  | Some c =>
      let newFingerprint := fingerprint c in
      inr (bool_decide (Some newFingerprint ≠ lastFingerprint entry), newFingerprint, c)
  end.

(** Modelled from the spec: the body of the MonitorLoop cycle for one entry
    of the snapshot (section 4.4): "for each entry, ChangeDetector.check; on
    change, RevisionWriter.write; on success, update entry.lastFingerprint
    and lastCheckedAt in WatchSet; on any per-entry error, emit an error
    event and continue to the next entry". *)
Definition process_entry (ev : env) (pe : string * WatchEntry Fp) (st : engine Fp)
    : engine Fp * list event :=
  let '(path, entry) := pe in
  match check ev path entry with
  | inl err => (st, [EntryError path err])
  | inr (changed, newFingerprint, c) =>
      if changed : bool then
        let w := write path (revisionDir entry) c (now ev) (write_failure ev path) (disk st) in
        match w.2 with
        | inr name =>
            (mkEngine
               (WatchSet.refresh
                  (λ e, mkEntry (revisionDir e) (Some newFingerprint) (Some (now ev)))
                  path (watch st))
               (running st) w.1,
             [ChangeDetected path; RevisionWritten path (revisionDir entry) name])
        | inl err =>
            (mkEngine (watch st) (running st) w.1,
             [ChangeDetected path; EntryError path err])
        end
      else
        (mkEngine
           (WatchSet.refresh
              (λ e, mkEntry (revisionDir e) (lastFingerprint e) (Some (now ev)))
              path (watch st))
           (running st) (disk st),
         [])
  end.

Definition process_entries (ev : env) (entries : list (string * WatchEntry Fp))
    (st : engine Fp) : engine Fp * list event :=
  foldl (λ acc pe, let r := process_entry ev pe acc.1 in (r.1, acc.2 ++ r.2))
        (st, []) entries.

(** Modelled from the spec: one cycle of the MonitorLoop (section 4.4),
    [entries = WatchSet.snapshot()] and then each entry in the order of the
    snapshot. *)
Definition cycle (ev : env) (st : engine Fp) : engine Fp * list event :=
  process_entries ev (WatchSet.snapshot (watch st)) st.

(** Modelled from the spec: LifecycleController (section 4.5): [start()]
    ("no-op if already Running"), [stop()] ("no-op if already Stopped"),
    [reload(newEntries)]. *)
Definition start (st : engine Fp) : engine Fp * list event :=
  if running st then (st, [])
  else (mkEngine (watch st) true (disk st), [LoopStarted]).

Definition stop (st : engine Fp) : engine Fp * list event :=
  if running st then (mkEngine (watch st) false (disk st), [LoopStopped])
  else (st, []).

Definition reload (newEntries : list (string * string)) (st : engine Fp)
    : engine Fp * list event :=
  (mkEngine (WatchSet.replaceAll newEntries (watch st)) (running st) (disk st), []).

(** The loop's timer: a cycle while Running, nothing while Stopped. *)
Definition tick (ev : env) (st : engine Fp) : engine Fp * list event :=
  if running st then cycle ev st else (st, []).

(** What can be asked of the engine, by its callers and by its timer. *)
Inductive op :=
  | Start
  | Stop
  | Reload (newEntries : list (string * string))
  | AddEntry (path revisionDir : string)
  | UpdateEntry (path revisionDir : string)
  | RemoveEntry (path : string)
  | Tick (ev : env).

(** The engine after the operation, the events it emitted, and the error
    handed back to the caller, if any. *)
Definition step (o : op) (st : engine Fp) : engine Fp * list event * option error :=
  match o with
  | Start => (start st, None)
  | Stop => (stop st, None)
  | Reload newEntries => (reload newEntries st, None)
  | AddEntry path dir =>
      (mkEngine (WatchSet.add path dir (watch st)) (running st) (disk st), [], None)
  | UpdateEntry path dir =>
      match WatchSet.update path dir (watch st) with
      | inr ws => (mkEngine ws (running st) (disk st), [], None)
      | inl err => (st, [], Some err)
      end
  | RemoveEntry path =>
      match WatchSet.remove path (watch st) with
      | inr ws => (mkEngine ws (running st) (disk st), [], None)
      | inl err => (st, [], Some err)
      end
  | Tick ev => (tick ev st, None)
  end.

Definition run (ops : list op) (st : engine Fp) : engine Fp * list event :=
  foldl (λ acc o, let r := step o acc.1 in (r.1.1, acc.2 ++ r.1.2)) (st, []) ops.

End engine.

(** The number of revisions the events report written for [path]. *)
Definition is_written (path : string) (e : event) : bool :=
  match e with
  | RevisionWritten p _ _ => bool_decide (p = path)
  | _ => false
  end.

Definition revisions_written (path : string) (evs : list event) : nat :=
  length (filter (is_written path) evs).

(** *** One entry in one cycle *)

(** The events that concern [path]. *)
Definition event_path (e : event) : option string :=
  match e with
  | ChangeDetected p | RevisionWritten p _ _ | EntryError p _ => Some p
  | LoopStarted | LoopStopped => None
  end.

Definition events_about (path : string) (evs : list event) : list event :=
  filter (λ e, event_path e = Some path) evs.

(** How a cycle ends for an entry. *)
Inductive verdict :=
  | Unchanged
  | Written (c : content)
  | ReadFailed
  | WriteFailed.

Definition write_fails (ev : env) (path : string) (c : content) : bool :=
  match write_failure ev path with
  | Some k => bool_decide (k < 3 + length c)
  | None => false
  end.

Section entry.
Context {Fp : Type} `{!EqDecision Fp}.
Variable fingerprint : content → Fp.

Definition verdict_of (ev : env) (path : string) (e : WatchEntry Fp) : verdict :=
  match read_file ev path with
  | None => ReadFailed
  | Some c =>
      if decide (lastFingerprint e = Some (fingerprint c)) then Unchanged
      else if write_fails ev path c then WriteFailed else Written c
  end.

Definition entry_after (ev : env) (v : verdict) (e : WatchEntry Fp) : WatchEntry Fp :=
  match v with
  | Unchanged => mkEntry (revisionDir e) (lastFingerprint e) (Some (now ev))
  | Written c => mkEntry (revisionDir e) (Some (fingerprint c)) (Some (now ev))
  | ReadFailed | WriteFailed => e
  end.

Lemma length_write_plan path d (c : content) ts s :
  length (write_plan path d c ts s) = 3 + length c.
Proof.
  unfold write_plan, write_ops. simpl.
  rewrite length_app, length_fmap. simpl. lia.
Qed.

Lemma write_result path d (c : content) ts ev s :
  (write path d c ts (write_failure ev path) s).2 =
  if write_fails ev path c then inl WriteError
  else inr (revision_name path d ts s).
Proof.
  unfold write, write_fails. destruct (write_failure ev path) as [k|]; [|done].
  rewrite length_write_plan. case_decide.
  - by rewrite bool_decide_eq_true_2.
  - by rewrite bool_decide_eq_false_2.
Qed.

Lemma getitem_refresh (f : WatchEntry Fp → WatchEntry Fp) p q ws :
  getitem q (WatchSet.refresh f p ws) =
  if decide (q = p) then f <$> getitem p ws else getitem q ws.
Proof.
  unfold WatchSet.refresh. destruct (getitem p ws) as [e|] eqn:E.
  - rewrite getitem_setitem. by case_decide.
  - case_decide; [by subst|done].
Qed.

Lemma keys_refresh (f : WatchEntry Fp → WatchEntry Fp) p ws :
  keys (WatchSet.refresh f p ws) = keys ws.
Proof.
  unfold WatchSet.refresh. destruct (getitem p ws) as [e|] eqn:E; [|done].
  apply keys_setitem_in. apply dec_stable. intros Hn.
  apply getitem_None in Hn. congruence.
Qed.

(** The entry of the watch set after [process_entry]: only [path]'s entry
    can change, by [entry_after]. *)
Lemma process_entry_watch ev path e st q :
  getitem q (watch (process_entry fingerprint ev (path, e) st).1) =
  if decide (q = path)
  then entry_after ev (verdict_of ev path e) <$> getitem path (watch st)
  else getitem q (watch st).
Proof.
  unfold process_entry, check, verdict_of.
  destruct (read_file ev path) as [c|]; simpl.
  - destruct (decide (lastFingerprint e = Some (fingerprint c))) as [E|E].
    + rewrite bool_decide_eq_false_2 by naive_solver. simpl.
      by rewrite getitem_refresh.
    + rewrite bool_decide_eq_true_2 by naive_solver.
      rewrite write_result. destruct (write_fails ev path c); simpl.
      * case_decide; [subst; by rewrite option_fmap_id|done].
      * by rewrite getitem_refresh.
  - case_decide; [subst; by rewrite option_fmap_id|done].
Qed.

Lemma process_entry_keys ev pe st :
  keys (watch (process_entry fingerprint ev pe st).1) = keys (watch st) ∧
  running (process_entry fingerprint ev pe st).1 = running st.
Proof.
  destruct pe as [path e]. unfold process_entry, check.
  destruct (read_file ev path) as [c|]; simpl; [|done].
  case_bool_decide; simpl.
  - destruct (write _ _ _ _ _ _).2; simpl; [done|]. by rewrite keys_refresh.
  - by rewrite keys_refresh.
Qed.

(** The events of [process_entry] and what it leaves on disk. *)
Lemma process_entry_events ev path e st :
  let r := process_entry fingerprint ev (path, e) st in
  match verdict_of ev path e with
  | Unchanged => r.2 = [] ∧ disk r.1 = disk st
  | ReadFailed => r.2 = [EntryError path ReadError] ∧ disk r.1 = disk st
  | WriteFailed => r.2 = [ChangeDetected path; EntryError path WriteError]
  | Written c =>
      let name := revision_name path (revisionDir e) (now ev) (disk st) in
      r.2 = [ChangeDetected path; RevisionWritten path (revisionDir e) name] ∧
      files (disk r.1) !! (revisionDir e, name) = Some c
  end.
Proof.
  unfold process_entry, check, verdict_of.
  destruct (read_file ev path) as [c|]; simpl; [|done].
  destruct (decide (lastFingerprint e = Some (fingerprint c))) as [E|E].
  - by rewrite bool_decide_eq_false_2 by naive_solver.
  - rewrite bool_decide_eq_true_2 by naive_solver.
    pose proof (write_result path (revisionDir e) c (now ev) ev (disk st)) as Hw.
    destruct (write_fails ev path c); rewrite Hw; simpl; [done|].
    split; [done|]. by apply write_ok_stores.
Qed.

Lemma process_entry_keeps_revisions ev pe st d base t j c0 :
  files (disk st) !! (d, Rev base t j) = Some c0 →
  files (disk (process_entry fingerprint ev pe st).1) !! (d, Rev base t j) = Some c0.
Proof.
  intros H0. destruct pe as [path e]. unfold process_entry, check.
  destruct (read_file ev path) as [c|]; simpl; [|done].
  case_bool_decide; simpl; [|done].
  destruct (write _ _ _ _ _ _).2 eqn:Hw; simpl; by apply write_keeps_revisions.
Qed.

Lemma process_entry_about ev path e st :
  Forall (λ x, event_path x = Some path) (process_entry fingerprint ev (path, e) st).2.
Proof.
  unfold process_entry, check.
  destruct (read_file ev path) as [c|]; simpl; [|by repeat constructor].
  case_bool_decide; simpl; [|by constructor].
  destruct (write _ _ _ _ _ _).2; simpl; by repeat constructor.
Qed.

(** *** All entries of a cycle *)

Lemma events_about_app p a b :
  events_about p (a ++ b) = events_about p a ++ events_about p b.
Proof. apply filter_app. Qed.

Lemma events_about_all p evs :
  Forall (λ x, event_path x = Some p) evs → events_about p evs = evs.
Proof.
  induction 1 as [|x evs Hx _ IH]; [done|].
  unfold events_about in *. rewrite filter_cons, decide_True by done. by rewrite IH.
Qed.

Lemma events_about_other p q evs :
  q ≠ p → Forall (λ x, event_path x = Some p) evs → events_about q evs = [].
Proof.
  intros Hq. induction 1 as [|x evs Hx _ IH]; [done|].
  unfold events_about in *. rewrite filter_cons, decide_False by congruence. done.
Qed.

Lemma process_entries_acc ev l st evs :
  foldl (λ acc pe, let r := process_entry fingerprint ev pe acc.1 in (r.1, acc.2 ++ r.2))
        (st, evs) l
  = ((process_entries fingerprint ev l st).1,
     evs ++ (process_entries fingerprint ev l st).2).
Proof.
  unfold process_entries. revert st evs.
  induction l as [|pe l IH]; intros st evs; simpl.
  - by rewrite app_nil_r.
  - rewrite IH. rewrite (IH _ (process_entry fingerprint ev pe st).2).
    simpl. by rewrite app_assoc.
Qed.

Lemma process_entries_cons ev pe l st :
  process_entries fingerprint ev (pe :: l) st =
  ((process_entries fingerprint ev l (process_entry fingerprint ev pe st).1).1,
   (process_entry fingerprint ev pe st).2 ++
   (process_entries fingerprint ev l (process_entry fingerprint ev pe st).1).2).
Proof.
  unfold process_entries at 1. simpl. by rewrite process_entries_acc.
Qed.

(** The watched paths and the Running state are the same after a cycle, and
    the revisions on disk are as they were. *)
Lemma process_entries_frame ev l st :
  keys (watch (process_entries fingerprint ev l st).1) = keys (watch st) ∧
  running (process_entries fingerprint ev l st).1 = running st ∧
  (∀ d base t j c0,
     files (disk st) !! (d, Rev base t j) = Some c0 →
     files (disk (process_entries fingerprint ev l st).1) !! (d, Rev base t j) = Some c0).
Proof.
  revert st. induction l as [|pe l IH]; intros st; [done|].
  rewrite process_entries_cons. cbn [fst snd].
  destruct (IH (process_entry fingerprint ev pe st).1) as (Hk & Hr & Hd).
  destruct (process_entry_keys ev pe st) as [Hk1 Hr1].
  split_and!.
  - by rewrite Hk, Hk1.
  - by rewrite Hr, Hr1.
  - intros d base t j c0 H0. by apply Hd, process_entry_keeps_revisions.
Qed.

(** What the events about [path] are at the end of the cycle, with the disk
    as the cycle leaves it. *)
Definition events_match (ev : env) (path : string) (e : WatchEntry Fp)
    (final : fs) (evs : list event) : Prop :=
  match verdict_of ev path e with
  | Unchanged => evs = []
  | ReadFailed => evs = [EntryError path ReadError]
  | WriteFailed => evs = [ChangeDetected path; EntryError path WriteError]
  | Written c =>
      ∃ k, evs = [ChangeDetected path;
                  RevisionWritten path (revisionDir e) (Rev (basename path) (now ev) k)] ∧
           files final !! (revisionDir e, Rev (basename path) (now ev) k) = Some c
  end.

Lemma process_entries_spec ev l st :
  NoDup l.*1 →
  (∀ p e, (p, e) ∈ l → getitem p (watch st) = Some e) →
  (∀ p e, (p, e) ∈ l →
     getitem p (watch (process_entries fingerprint ev l st).1)
       = Some (entry_after ev (verdict_of ev p e) e) ∧
     events_match ev p e (disk (process_entries fingerprint ev l st).1)
       (events_about p (process_entries fingerprint ev l st).2)) ∧
  (∀ q, q ∉ l.*1 →
     getitem q (watch (process_entries fingerprint ev l st).1) = getitem q (watch st) ∧
     events_about q (process_entries fingerprint ev l st).2 = []).
Proof.
  revert st. induction l as [|[p0 e0] l IH]; intros st Hnd Hl.
  - split; [intros p e H; by apply elem_of_nil in H | done].
  - rewrite fmap_cons in Hnd. apply NoDup_cons in Hnd as [Hp0 Hnd].
    rewrite process_entries_cons. cbn [fst snd].
    set (st1 := (process_entry fingerprint ev (p0, e0) st).1).
    assert (∀ p e, (p, e) ∈ l → getitem p (watch st1) = Some e) as Hl1.
    { intros p e Hpe. subst st1. rewrite process_entry_watch.
      rewrite decide_False; [apply Hl; by right|].
      intros ->. apply Hp0. by apply (list_elem_of_fmap_2 fst) in Hpe. }
    destruct (IH st1 Hnd Hl1) as [IHin IHout].
    assert (getitem p0 (watch st1) = Some (entry_after ev (verdict_of ev p0 e0) e0))
      as Hp0st1.
    { subst st1. rewrite process_entry_watch, decide_True by done.
      rewrite (Hl p0 e0) by left. done. }
    pose proof (process_entry_about ev p0 e0 st) as Habout.
    split.
    + intros p e [E|Hpe]%elem_of_cons.
      * injection E as -> ->. destruct (IHout p0 Hp0) as [Hw Hev].
        split; [congruence|].
        rewrite events_about_app, Hev, app_nil_r, events_about_all by done.
        pose proof (process_entry_events ev p0 e0 st) as Hpe.
        unfold events_match. cbv zeta in Hpe.
        destruct (verdict_of ev p0 e0) as [|c| |]; try tauto.
        destruct Hpe as [Hevs Hfile].
        destruct (revision_name_is_Rev p0 (revisionDir e0) (now ev) (disk st))
          as [k Hk].
        rewrite Hk in Hevs, Hfile. exists k. split; [done|].
        by apply process_entries_frame.
      * destruct (IHin p e Hpe) as [Hw Hev]. split; [done|].
        rewrite events_about_app.
        rewrite (events_about_other p0 p); [done| |done].
        intros ->. apply Hp0. by apply (list_elem_of_fmap_2 fst) in Hpe.
    + intros q Hq. rewrite fmap_cons in Hq. apply not_elem_of_cons in Hq as [Hq0 Hq].
      destruct (IHout q Hq) as [Hw Hev]. split.
      * rewrite Hw. subst st1. by rewrite process_entry_watch, decide_False.
      * rewrite events_about_app, Hev, app_nil_r.
        by apply (events_about_other p0 q).
Qed.

(** A cycle in which no entry is written to leaves the disk alone. *)
Lemma process_entries_no_write ev l st :
  (∀ p e, (p, e) ∈ l →
     verdict_of ev p e = Unchanged ∨ verdict_of ev p e = ReadFailed) →
  disk (process_entries fingerprint ev l st).1 = disk st.
Proof.
  revert st. induction l as [|[p0 e0] l IH]; intros st Hl; [done|].
  rewrite process_entries_cons. cbn [fst snd]. rewrite IH.
  - pose proof (process_entry_events ev p0 e0 st) as Hpe. cbv zeta in Hpe.
    destruct (Hl p0 e0) as [E|E]; [left|..]; rewrite E in Hpe; tauto.
  - intros p e Hpe. apply Hl. by right.
Qed.

(** *** A cycle, and runs of operations *)

Lemma cycle_entry ev st p e :
  NoDup (keys (watch st)) → getitem p (watch st) = Some e →
  getitem p (watch (cycle fingerprint ev st).1)
    = Some (entry_after ev (verdict_of ev p e) e) ∧
  events_match ev p e (disk (cycle fingerprint ev st).1)
    (events_about p (cycle fingerprint ev st).2).
Proof.
  intros Hnd Hp. unfold cycle, WatchSet.snapshot, items.
  apply process_entries_spec; [done| |by apply getitem_Some_elem].
  intros q eq Hq. by apply elem_getitem.
Qed.

Lemma cycle_frame ev st :
  keys (watch (cycle fingerprint ev st).1) = keys (watch st) ∧
  running (cycle fingerprint ev st).1 = running st ∧
  (∀ d base t j c0,
     files (disk st) !! (d, Rev base t j) = Some c0 →
     files (disk (cycle fingerprint ev st).1) !! (d, Rev base t j) = Some c0).
Proof. apply process_entries_frame. Qed.


Lemma revisions_written_about p evs :
  revisions_written p (events_about p evs) = revisions_written p evs.
Proof.
  unfold revisions_written, events_about.
  induction evs as [|x evs IH]; [done|].
  rewrite !filter_cons. destruct (decide (event_path x = Some p)) as [E|E].
  - rewrite filter_cons. destruct (decide (is_written p x)); simpl; by rewrite IH.
  - rewrite decide_False; [done|].
    intros Hw. apply E. destruct x; try done. simpl in *.
    by apply bool_decide_unpack in Hw as ->.
Qed.

Lemma events_match_written ev p e final evs :
  events_match ev p e final evs →
  revisions_written p evs =
  match verdict_of ev p e with Written _ => 1 | _ => 0 end.
Proof.
  unfold events_match. destruct (verdict_of ev p e); try by intros ->.
  intros (k & -> & _). unfold revisions_written.
  rewrite filter_cons, decide_False by (simpl; tauto).
  rewrite filter_cons, decide_True; [done|].
  simpl. by apply bool_decide_pack.
Qed.

Lemma cycle_written ev st p e :
  NoDup (keys (watch st)) → getitem p (watch st) = Some e →
  revisions_written p (cycle fingerprint ev st).2 =
  match verdict_of ev p e with Written _ => 1 | _ => 0 end.
Proof.
  intros Hnd Hp. rewrite <- revisions_written_about.
  eapply events_match_written. by apply cycle_entry.
Qed.

Lemma run_acc ops (st : engine Fp) evs :
  foldl (λ acc o, let r := step fingerprint o acc.1 in (r.1.1, acc.2 ++ r.1.2))
        (st, evs) ops
  = ((run fingerprint ops st).1, evs ++ (run fingerprint ops st).2).
Proof.
  unfold run. revert st evs. induction ops as [|o ops IH]; intros st evs; simpl.
  - by rewrite app_nil_r.
  - rewrite IH. rewrite (IH _ (step fingerprint o st).1.2). simpl.
    by rewrite app_assoc.
Qed.

Lemma run_cons o ops (st : engine Fp) :
  run fingerprint (o :: ops) st =
  ((run fingerprint ops (step fingerprint o st).1.1).1,
   (step fingerprint o st).1.2 ++ (run fingerprint ops (step fingerprint o st).1.1).2).
Proof. unfold run at 1. simpl. by rewrite run_acc. Qed.

(** No operation of the engine changes a revision that is on disk. *)
Lemma step_keeps_revisions o (st : engine Fp) d base t j c0 :
  files (disk st) !! (d, Rev base t j) = Some c0 →
  files (disk (step fingerprint o st).1.1) !! (d, Rev base t j) = Some c0.
Proof.
  intros H0. destruct o as [| |entries|p dir|p dir|p|ev]; simpl.
  - unfold start. by destruct (running st).
  - unfold stop. by destruct (running st).
  - done.
  - done.
  - by destruct (WatchSet.update p dir (watch st)).
  - by destruct (WatchSet.remove p (watch st)).
  - unfold tick. destruct (running st); [|done]. by apply cycle_frame.
Qed.

Lemma run_keeps_revisions ops (st : engine Fp) d base t j c0 :
  files (disk st) !! (d, Rev base t j) = Some c0 →
  files (disk (run fingerprint ops st).1) !! (d, Rev base t j) = Some c0.
Proof.
  revert st. induction ops as [|o ops IH]; intros st H0; [done|].
  rewrite run_cons. cbn [fst snd]. by apply IH, step_keeps_revisions.
Qed.

(** *** The revision writer *)


(** C4.  A revision on disk stays as it is through every run of engine
    operations (start, stop, reload, add, update, remove, cycles).  A write
    into its directory leaves it alone as well: the name a successful write
    returns was free before and differs from the revision's, and when the
    new revision has the same base name and timestamp as an unsuffixed one,
    its name carries a suffix other than [0]. *)
Theorem revisions_are_write_once (ops : list op) (st : engine Fp) d base t j c0 :
  files (disk st) !! (d, Rev base t j) = Some c0 →
  files (disk (run fingerprint ops st).1) !! (d, Rev base t j) = Some c0 ∧
  (∀ path (c : content) failure,
     let w := write path d c t failure (disk st) in
     files w.1 !! (d, Rev base t j) = Some c0 ∧
     ∀ name, w.2 = inr name →
       name ≠ Rev base t j ∧
       files (disk st) !! (d, name) = None ∧
       files w.1 !! (d, name) = Some c ∧
       ∃ k, name = Rev (basename path) t k ∧ (basename path = base → j = 0 → k ≠ 0)).
Proof.
  intros H0. split; [by apply run_keeps_revisions|].
  intros path c failure w. split; [by apply write_keeps_revisions|].
  intros name Hname. apply write_ok_stores in Hname as [-> Hc].
  pose proof (revision_name_fresh path d t (disk st)) as Hfresh.
  split_and!; [congruence|done|done|].
  destruct (revision_name_is_Rev path d t (disk st)) as [k Hk].
  exists k. split; [done|]. intros <- -> ->. congruence.
Qed.

(** *** Stop and start *)


(** *** Errors of one entry *)

Lemma cycle_absent ev (st : engine Fp) q :
  NoDup (keys (watch st)) → getitem q (watch st) = None →
  getitem q (watch (cycle fingerprint ev st).1) = None ∧
  events_about q (cycle fingerprint ev st).2 = [].
Proof.
  intros Hnd Hq. unfold cycle, WatchSet.snapshot, items.
  destruct (process_entries_spec ev (watch st) st Hnd) as [_ Hout].
  { intros p e Hpe. by apply elem_getitem. }
  destruct (Hout q) as [Hw Hev]; [by apply getitem_None|].
  by rewrite Hw.
Qed.

Lemma verdict_of_agree ev ev' q (e : WatchEntry Fp) :
  read_file ev' q = read_file ev q → write_failure ev' q = write_failure ev q →
  verdict_of ev' q e = verdict_of ev q e.
Proof. unfold verdict_of, write_fails. by intros -> ->. Qed.

(** C5.  When an entry cannot be read, or its revision cannot be written,
    the cycle reports the error as an event for that entry and goes on: the
    entry is in the watch set with the fingerprint and the directory it had,
    no revision is reported for it, the watch set holds the same paths and
    the engine is as Running as it was.  The other entries end the
    cycle as they would have had the failing entry been readable and
    writable, with the same number of revisions written.  On the next cycle
    in which the file can be read and written, the revision is written. *)
Theorem entry_error_is_contained (ev : env) (st : engine Fp) p e :
  NoDup (keys (watch st)) →
  getitem p (watch st) = Some e →
  (read_file ev p = None ∨
   ∃ c, read_file ev p = Some c ∧ lastFingerprint e ≠ Some (fingerprint c) ∧
        write_fails ev p c = true) →
  let r := cycle fingerprint ev st in
  (∃ err, EntryError p err ∈ r.2 ∧
          (err = ReadError ↔ read_file ev p = None)) ∧
  revisions_written p r.2 = 0 ∧
  lastFingerprint <$> getitem p (watch r.1) = Some (lastFingerprint e) ∧
  revisionDir <$> getitem p (watch r.1) = Some (revisionDir e) ∧
  keys (watch r.1) = keys (watch st) ∧
  running r.1 = running st ∧
  (∀ ev', now ev' = now ev →
     (∀ q, q ≠ p → read_file ev' q = read_file ev q ∧
                   write_failure ev' q = write_failure ev q) →
     ∀ q, q ≠ p →
       getitem q (watch (cycle fingerprint ev' st).1) = getitem q (watch r.1) ∧
       revisions_written q (cycle fingerprint ev' st).2 = revisions_written q r.2) ∧
  (∀ ev' c, read_file ev' p = Some c → lastFingerprint e ≠ Some (fingerprint c) →
     write_fails ev' p c = false →
     revisions_written p (cycle fingerprint ev' r.1).2 = 1 ∧
     lastFingerprint <$> getitem p (watch (cycle fingerprint ev' r.1).1)
       = Some (Some (fingerprint c))).
Proof.
  intros Hnd Hp Hfail r.
  destruct (cycle_entry ev st p e Hnd Hp) as [Hw Hev].
  destruct (cycle_frame ev st) as (Hkeys & Hrun & _).
  fold r in Hw, Hev, Hkeys, Hrun.
  assert ((verdict_of ev p e = ReadFailed ∧ read_file ev p = None) ∨
          (verdict_of ev p e = WriteFailed ∧ read_file ev p ≠ None)) as Hv.
  { unfold verdict_of. destruct Hfail as [->|(c & -> & Hne & Hwf)]; [by left|].
    right. by rewrite decide_False, Hwf. }
  assert (getitem p (watch r.1) = Some e) as Hsame.
  { rewrite Hw. by destruct Hv as [[-> _]|[-> _]]. }
  split_and!.
  - unfold events_match in Hev.
    destruct Hv as [[Hv Hr]|[Hv Hr]]; rewrite Hv in Hev.
    + exists ReadError. split; [|done].
      assert (EntryError p ReadError ∈ events_about p r.2) as Hin
        by (rewrite Hev; apply list_elem_of_here).
      by apply list_elem_of_filter in Hin as [_ ?].
    + exists WriteError. split; [|done].
      assert (EntryError p WriteError ∈ events_about p r.2) as Hin
        by (rewrite Hev; apply list_elem_of_further, list_elem_of_here).
      by apply list_elem_of_filter in Hin as [_ ?].
  - subst r. rewrite (cycle_written ev st p e) by done.
    by destruct Hv as [[-> _]|[-> _]].
  - by rewrite Hsame.
  - by rewrite Hsame.
  - done.
  - done.
  - intros ev' Hnow Hagree q Hq.
    destruct (getitem q (watch st)) as [eq|] eqn:Hgq.
    + destruct (cycle_entry ev st q eq Hnd Hgq) as [Hw1 _].
      destruct (cycle_entry ev' st q eq Hnd Hgq) as [Hw2 _].
      destruct (Hagree q Hq) as [Hr Hf].
      subst r. rewrite Hw1, Hw2, !(cycle_written _ st q eq) by done.
      rewrite (verdict_of_agree ev ev' q eq Hr Hf).
      split; [|done]. unfold entry_after. by rewrite Hnow.
    + destruct (cycle_absent ev st q Hnd Hgq) as [Hw1 He1].
      destruct (cycle_absent ev' st q Hnd Hgq) as [Hw2 He2].
      subst r. rewrite Hw1, Hw2. split; [done|].
      by rewrite <- (revisions_written_about q), He2,
                 <- (revisions_written_about q (cycle fingerprint ev st).2), He1.
  - intros ev' c Hread Hne Hok.
    assert (NoDup (keys (watch r.1))) as Hnd' by by rewrite Hkeys.
    assert (verdict_of ev' p e = Written c) as Hv'.
    { unfold verdict_of. by rewrite Hread, decide_False, Hok. }
    split.
    + rewrite (cycle_written ev' r.1 p e) by done. by rewrite Hv'.
    + destruct (cycle_entry ev' r.1 p e Hnd' Hsame) as [-> _]. by rewrite Hv'.
Qed.

(** *** No change between two cycles *)

(** C3, as the engine has it.  When a file reads the same in two
    consecutive cycles and the first of them reported no error for its
    entry, the second cycle emits nothing about the entry and writes no
    revision for it; and a cycle in which every entry is unchanged leaves
    the disk, and so every revision directory, as it was. *)
Theorem unchanged_file_no_new_revision (ev1 ev2 : env) (st : engine Fp) p e :
  NoDup (keys (watch st)) →
  getitem p (watch st) = Some e →
  read_file ev2 p = read_file ev1 p →
  (∀ err, EntryError p err ∉ (cycle fingerprint ev1 st).2) →
  let st1 := (cycle fingerprint ev1 st).1 in
  let r2 := cycle fingerprint ev2 st1 in
  revisions_written p r2.2 = 0 ∧
  events_about p r2.2 = [] ∧
  lastFingerprint <$> getitem p (watch r2.1) = lastFingerprint <$> getitem p (watch st1) ∧
  ((∀ q eq, getitem q (watch st1) = Some eq → verdict_of ev2 q eq = Unchanged) →
   disk r2.1 = disk st1).
Proof.
  intros Hnd Hp Hread Hnoerr st1 r2.
  destruct (cycle_entry ev1 st p e Hnd Hp) as [Hw Hev].
  destruct (cycle_frame ev1 st) as (Hkeys & _ & _).
  fold st1 in Hw, Hkeys.
  assert (NoDup (keys (watch st1))) as Hnd1 by by rewrite Hkeys.
  assert (∀ err, EntryError p err ∉ events_about p (cycle fingerprint ev1 st).2)
    as Hnoerr'.
  { intros err Hin. apply list_elem_of_filter in Hin as [_ Hin]. by apply (Hnoerr err). }
  assert (∃ c, read_file ev1 p = Some c ∧
               lastFingerprint (entry_after ev1 (verdict_of ev1 p e) e)
                 = Some (fingerprint c)) as (c & Hc & Hfp).
  { unfold events_match in Hev. unfold verdict_of in *.
    destruct (read_file ev1 p) as [c|].
    - exists c. split; [done|].
      destruct (decide (lastFingerprint e = Some (fingerprint c))); [done|].
      destruct (write_fails ev1 p c); [|done].
      exfalso. apply (Hnoerr' WriteError). rewrite Hev.
      apply list_elem_of_further, list_elem_of_here.
    - exfalso. apply (Hnoerr' ReadError). rewrite Hev. apply list_elem_of_here. }
  set (e1 := entry_after ev1 (verdict_of ev1 p e) e) in *.
  assert (verdict_of ev2 p e1 = Unchanged) as Hv2.
  { unfold verdict_of. rewrite Hread, Hc. by rewrite decide_True. }
  destruct (cycle_entry ev2 st1 p e1 Hnd1 Hw) as [Hw2 Hev2].
  fold r2 in Hw2, Hev2. unfold events_match in Hev2. rewrite Hv2 in Hev2.
  split_and!.
  - subst r2. rewrite (cycle_written ev2 st1 p e1) by done. by rewrite Hv2.
  - done.
  - by rewrite Hw2, Hw, Hv2.
  - intros Hall. subst r2. unfold cycle, WatchSet.snapshot, items.
    apply process_entries_no_write. intros q eq Hq. left.
    apply Hall. by apply elem_getitem.
Qed.

End entry.

(** *** Revision files and the events that report them *)

Definition is_rev (n : fname) : bool :=
  match n with Rev _ _ _ => true | Tmp _ => false end.

(** The revision files on disk. *)
Definition revisions (s : fs) : gset (string * fname) :=
  filter (λ dn, is_rev dn.2) (dom (files s)).

Definition is_revision_event (e : event) : bool :=
  match e with RevisionWritten _ _ _ => true | _ => false end.

Definition total_written (evs : list event) : nat :=
  length (filter is_revision_event evs).

Lemma elem_of_revisions s dn :
  dn ∈ revisions s ↔ is_rev dn.2 ∧ is_Some (files s !! dn).
Proof. unfold revisions. by rewrite elem_of_filter, elem_of_dom. Qed.

Lemma write_failed_revisions path d (c : content) ts s k dn :
  k < 3 + length c → is_rev dn.2 →
  files (run_ops (take k (write_plan path d c ts s)) s) !! dn = files s !! dn.
Proof.
  intros Hk Hrev. destruct dn as [d' [n|base t j]]; [done|]. unfold write_plan.
  destruct (write_prefix_states d (temp_name d s) (revision_name path d ts s) c s k)
    as [[_ ->]|[[_ ->]|[(i & _ & _ & ->)|[? _]]]]; [done..| |lia].
  simpl. by rewrite lookup_insert_ne.
Qed.

(** A successful write adds one revision file, under a name that was free;
    a failed write adds none. *)
Lemma write_revisions path d (c : content) ts failure s :
  revisions (write path d c ts failure s).1 =
  match (write path d c ts failure s).2 with
  | inr name => {[(d, name)]} ∪ revisions s
  | inl _ => revisions s
  end.
Proof.
  assert (revisions (run_ops (write_plan path d c ts s) s)
          = {[(d, revision_name path d ts s)]} ∪ revisions s) as Hok.
  { apply set_eq. intros dn.
    rewrite elem_of_union, elem_of_singleton, !elem_of_revisions.
    assert (files (run_ops (write_plan path d c ts s) s)
              !! (d, revision_name path d ts s) = Some c) as Hc
      by apply (write_ok_stores path d c ts None s _ eq_refl).
    destruct (revision_name_is_Rev path d ts s) as [k0 Hk0].
    destruct dn as [d' [n|base t j]]; cbn [snd is_rev].
    { split; [by intros [[] _] | intros [E|[[] _]]]. congruence. }
    pose proof (write_prefix_revisions path d c ts s
                  (length (write_plan path d c ts s)) d' base t j) as Hpre.
    cbv zeta in Hpre. rewrite take_ge in Hpre by done.
    split.
    - intros [_ Hs]. destruct Hpre as [E|[E _]]; [|by left].
      right. by rewrite <- E.
    - intros [E|[_ Hs]]; (split; [done|]).
      + rewrite E, Hc. by eexists.
      + destruct Hpre as [E|[_ E]]; rewrite E; [done|by eexists]. }
  unfold write. destruct failure as [k|]; [|done].
  rewrite length_write_plan. case_decide; [|done]. simpl.
  apply set_eq. intros dn. rewrite !elem_of_revisions.
  split; intros [Hrev Hs]; (split; [done|]).
  - by rewrite write_failed_revisions in Hs.
  - by rewrite write_failed_revisions.
Qed.

Lemma total_written_app a b :
  total_written (a ++ b) = total_written a + total_written b.
Proof. unfold total_written. by rewrite filter_app, length_app. Qed.

Section accounting.
Context {Fp : Type} `{!EqDecision Fp}.
Variable fingerprint : content → Fp.

Lemma process_entry_revision_count ev pe (st : engine Fp) :
  size (revisions (disk (process_entry fingerprint ev pe st).1)) =
  size (revisions (disk st)) + total_written (process_entry fingerprint ev pe st).2.
Proof.
  destruct pe as [path e]. unfold process_entry, check.
  destruct (read_file ev path) as [c|]; simpl; [|by rewrite Nat.add_0_r].
  case_bool_decide; simpl; [|by rewrite Nat.add_0_r].
  pose proof (write_revisions path (revisionDir e) c (now ev)
                (write_failure ev path) (disk st)) as Hw.
  destruct (write _ _ _ _ _ _).2 as [err|name] eqn:Hres; simpl; rewrite Hw.
  - by rewrite Nat.add_0_r.
  - apply write_ok_stores in Hres as [-> _].
    rewrite size_union, size_singleton; [unfold total_written; simpl; lia|].
    apply disjoint_singleton_l. rewrite elem_of_revisions.
    rewrite revision_name_fresh. by intros [_ [? ?]].
Qed.

Lemma process_entries_revision_count ev l (st : engine Fp) :
  size (revisions (disk (process_entries fingerprint ev l st).1)) =
  size (revisions (disk st)) + total_written (process_entries fingerprint ev l st).2.
Proof.
  revert st. induction l as [|pe l IH]; intros st.
  - simpl. by rewrite Nat.add_0_r.
  - rewrite process_entries_cons. cbn [fst snd].
    rewrite IH, process_entry_revision_count, total_written_app. lia.
Qed.

(** Every [RevisionWritten] event of a run stands for one new revision file
    on disk, and no revision file appears without one. *)
Lemma run_revision_count ops (st : engine Fp) :
  size (revisions (disk (run fingerprint ops st).1)) =
  size (revisions (disk st)) + total_written (run fingerprint ops st).2.
Proof.
  revert st. induction ops as [|o ops IH]; intros st.
  - simpl. by rewrite Nat.add_0_r.
  - rewrite run_cons. cbn [fst snd]. rewrite IH, total_written_app.
    assert (size (revisions (disk (step fingerprint o st).1.1)) =
            size (revisions (disk st)) + total_written (step fingerprint o st).1.2)
      as ->; [|lia].
    destruct o as [| |entries|p dir|p dir|p|ev]; simpl.
    + unfold start. destruct (running st); simpl; by rewrite Nat.add_0_r.
    + unfold stop. destruct (running st); simpl; by rewrite Nat.add_0_r.
    + by rewrite Nat.add_0_r.
    + by rewrite Nat.add_0_r.
    + destruct (WatchSet.update p dir (watch st)); simpl; by rewrite Nat.add_0_r.
    + destruct (WatchSet.remove p (watch st)); simpl; by rewrite Nat.add_0_r.
    + unfold tick. destruct (running st); simpl; [|by rewrite Nat.add_0_r].
      apply process_entries_revision_count.
Qed.

(** The paths of the watch set stay pairwise distinct through every
    operation, so an engine started on an empty (or any duplicate-free)
    watch set always has at most one entry per path. *)
Lemma replaceAll_NoDup (entries : list (string * string)) (ws : dict (WatchEntry Fp)) :
  NoDup (keys (WatchSet.replaceAll entries ws)).
Proof.
  unfold WatchSet.replaceAll.
  assert (∀ acc : dict (WatchEntry Fp), NoDup (keys acc) →
            NoDup (keys (foldl (λ acc pd,
              let e := match getitem pd.1 ws with
                       | Some e => mkEntry pd.2 (lastFingerprint e) (lastCheckedAt e)
                       | None => mkEntry pd.2 None None
                       end in
              setitem pd.1 e acc) acc entries))) as H.
  { induction entries as [|pd entries IH]; intros acc Hacc; [done|].
    simpl. by apply IH, NoDup_setitem. }
  apply H, NoDup_nil_2.
Qed.

Lemma step_NoDup o (st : engine Fp) :
  NoDup (keys (watch st)) → NoDup (keys (watch (step fingerprint o st).1.1)).
Proof.
  intros Hnd. destruct o as [| |entries|p dir|p dir|p|ev]; simpl.
  - unfold start. by destruct (running st).
  - unfold stop. by destruct (running st).
  - apply replaceAll_NoDup.
  - unfold WatchSet.add. destruct (getitem p (watch st)); by apply NoDup_setitem.
  - unfold WatchSet.update. destruct (getitem p (watch st)); simpl; [|done].
    by apply NoDup_setitem.
  - unfold WatchSet.remove, delitem. destruct (getitem p (watch st)); simpl; [|done].
    by apply NoDup_remove.
  - unfold tick. destruct (running st); [|done].
    by rewrite (proj1 (cycle_frame fingerprint ev st)).
Qed.

Lemma run_NoDup ops (st : engine Fp) :
  NoDup (keys (watch st)) → NoDup (keys (watch (run fingerprint ops st).1)).
Proof.
  revert st. induction ops as [|o ops IH]; intros st Hnd; [done|].
  rewrite run_cons. cbn [fst snd]. by apply IH, step_NoDup.
Qed.

End accounting.

(** *** The cycle under any fingerprint strategy

    The specification leaves the fingerprint strategy open: a hash of the
    content, the size and modification time, or both (sections 3, 4.2 and
    9).  Here the detector takes the file as it finds it, its content and
    its modification time, and the strategy is any function of that.  The
    cycle is the one above with this detector in the place of [check]; a
    strategy that reads the content only gives [cycle] back
    ([cycle_stat_content_only]). *)

(** What is found of a file: its bytes (and with them its size) and its
    modification time. *)
Record file_stat := mkStat {
  st_content : content;
  st_mtime : timestamp;
}.

(** The environment of a cycle together with the modification times of the
    watched files. *)
Record stat_env := mkStatEnv {
  env_of : env;
  mtime_of : string → timestamp;
}.

Definition stat (sev : stat_env) (path : string) : option file_stat :=
  match read_file (env_of sev) path with
  | Some c => Some (mkStat c (mtime_of sev path))
  | None => None
  end.

Section strategy.
Context {Fp : Type} `{!EqDecision Fp}.

(** The strategy: hash of the content, size and modification time, both. *)
Variable fingerprint : file_stat → Fp.

(** Modelled from the spec: ChangeDetector.check (section 4.2) for a
    strategy that may read the modification time: "changed is true if
    newFingerprint != entry.lastFingerprint", the content read once is what
    is snapshotted, an unreadable file is a [ReadError]. *)
Definition check_stat (sev : stat_env) (path : string) (entry : WatchEntry Fp)
    : error + (bool * Fp * content) :=
  match stat sev path with
  | None => inl ReadError
  | Some found =>
      let newFingerprint := fingerprint found in
      inr (bool_decide (Some newFingerprint ≠ lastFingerprint entry),
           newFingerprint, st_content found)
  end.

(** Modelled from the spec: the body of the MonitorLoop cycle for one entry
    (section 4.4), as [process_entry], with [check_stat] as the detector. *)
Definition process_entry_stat (sev : stat_env) (pe : string * WatchEntry Fp)
    (st : engine Fp) : engine Fp * list event :=
  let '(path, entry) := pe in
  let ev := env_of sev in
  match check_stat sev path entry with
  | inl err => (st, [EntryError path err])
  | inr (changed, newFingerprint, c) =>
      if changed : bool then
        let w := write path (revisionDir entry) c (now ev) (write_failure ev path) (disk st) in
        match w.2 with
        | inr name =>
            (mkEngine
               (WatchSet.refresh
                  (λ e, mkEntry (revisionDir e) (Some newFingerprint) (Some (now ev)))
                  path (watch st))
               (running st) w.1,
             [ChangeDetected path; RevisionWritten path (revisionDir entry) name])
        | inl err =>
            (mkEngine (watch st) (running st) w.1,
             [ChangeDetected path; EntryError path err])
        end
      else
        (mkEngine
           (WatchSet.refresh
              (λ e, mkEntry (revisionDir e) (lastFingerprint e) (Some (now ev)))
              path (watch st))
           (running st) (disk st),
         [])
  end.

Definition process_entries_stat (sev : stat_env)
    (entries : list (string * WatchEntry Fp)) (st : engine Fp)
    : engine Fp * list event :=
  foldl (λ acc pe, let r := process_entry_stat sev pe acc.1 in (r.1, acc.2 ++ r.2))
        (st, []) entries.

(** Modelled from the spec: one cycle of the MonitorLoop (section 4.4) over
    the snapshot of the watch set. *)
Definition cycle_stat (sev : stat_env) (st : engine Fp) : engine Fp * list event :=
  process_entries_stat sev (WatchSet.snapshot (watch st)) st.

(** The cycles the loop runs, one after the other. *)
Definition run_cycles (cycles : list stat_env) (st : engine Fp)
    : engine Fp * list event :=
  foldl (λ acc sev, let r := cycle_stat sev acc.1 in (r.1, acc.2 ++ r.2))
        (st, []) cycles.

















Lemma run_cycles_acc cycles (st : engine Fp) evs :
  foldl (λ acc sev, let r := cycle_stat sev acc.1 in (r.1, acc.2 ++ r.2))
        (st, evs) cycles
  = ((run_cycles cycles st).1, evs ++ (run_cycles cycles st).2).
Proof.
  unfold run_cycles. revert st evs.
  induction cycles as [|sev cycles IH]; intros st evs; simpl.
  - by rewrite app_nil_r.
  - rewrite IH. rewrite (IH _ (cycle_stat sev st).2). simpl. by rewrite app_assoc.
Qed.

Lemma run_cycles_cons sev cycles (st : engine Fp) :
  run_cycles (sev :: cycles) st =
  ((run_cycles cycles (cycle_stat sev st).1).1,
   (cycle_stat sev st).2 ++ (run_cycles cycles (cycle_stat sev st).1).2).
Proof. unfold run_cycles at 1. simpl. by rewrite run_cycles_acc. Qed.





End strategy.

Lemma process_entry_stat_content_only {Fp} `{!EqDecision Fp} (f : content → Fp)
    (sev : stat_env) (pe : string * WatchEntry Fp) (st : engine Fp) :
  process_entry_stat (λ found, f (st_content found)) sev pe st
  = process_entry f (env_of sev) pe st.
Proof.
  destruct pe as [p e].
  unfold process_entry_stat, process_entry, check_stat, check, stat.
  by destruct (read_file (env_of sev) p).
Qed.

(** A strategy that reads the content only makes [cycle_stat] the [cycle]
    of the sections above. *)
Lemma cycle_stat_content_only {Fp} `{!EqDecision Fp} (f : content → Fp)
    (sev : stat_env) (st : engine Fp) :
  cycle_stat (λ found, f (st_content found)) sev st = cycle f (env_of sev) st.
Proof.
  unfold cycle_stat, cycle, process_entries_stat, process_entries.
  generalize (WatchSet.snapshot (watch st)). intros l.
  generalize (@nil event). revert st.
  induction l as [|pe l IH]; intros st evs; [done|].
  cbn [foldl fst snd]. rewrite process_entry_stat_content_only. apply IH.
Qed.

(** And the cycles of such a strategy are the ticks of the running engine. *)
Lemma run_cycles_content_only {Fp} `{!EqDecision Fp} (f : content → Fp)
    (cycles : list stat_env) (st : engine Fp) :
  running st = true →
  run_cycles (λ found, f (st_content found)) cycles st
  = run f (Tick <$> (env_of <$> cycles)) st.
Proof.
  revert st. induction cycles as [|sev cycles IH]; intros st Hrun; [done|].
  rewrite run_cycles_cons, !fmap_cons, run_cons. cbn [step fst snd].
  unfold tick. rewrite Hrun, cycle_stat_content_only.
  rewrite IH; [done|]. by rewrite (proj1 (proj2 (cycle_frame f (env_of sev) st))).
Qed.

(** *** The engine on a watched report *)

Definition bytes (s : string) : content := String.list_byte_of_string s.

(** Fingerprinting by the whole content: no two contents collide. *)
Definition content_fingerprint : content → content := id.

Definition report : string := "/data/report.txt".

Definition watching_report : engine content :=
  mkEngine (WatchSet.add report "revs/report" []) true (mkFs ∅ ∅).

(** At time [t] the report reads [c]; writing fails at step [failure]. *)
Definition reads (t : timestamp) (c : string) (failure : option nat) : env :=
  mkEnv t (λ p, if decide (p = report) then Some (bytes c) else None) (λ _, failure).

Definition unreadable (t : timestamp) : env := mkEnv t (λ _, None) (λ _, None).

Definition entry_A : WatchEntry content :=
  mkEntry "revs/report" (Some (bytes "A")) (Some 1).

(** The engine with content "A" recorded for the report at time 1: the
    fingerprint is stored and the revision is on disk. *)
Definition recorded_A : engine content :=
  mkEngine [(report, entry_A)] true
    (mkFs {["revs/report"]} {[("revs/report", Rev "report.txt" 1 0) := bytes "A"]}).

Example recorded_A_by_cycle :
  (cycle content_fingerprint (reads 1 "A" None) watching_report).1 = recorded_A.
Proof. vm_compute. reflexivity. Qed.

(** The scenario of the specification: content "A", then "B", then a cycle
    without a change: two revisions, the first untouched. *)
Example report_scenario :
  let r := run content_fingerprint
             [Tick (reads 1 "A" None); Tick (reads 2 "B" None); Tick (reads 3 "B" None)]
             watching_report in
  map_to_list (files (disk r.1)) =
    [("revs/report", Rev "report.txt" 2 0, bytes "B");
     ("revs/report", Rev "report.txt" 1 0, bytes "A")] ∧
  r.2 = [ChangeDetected report; RevisionWritten report "revs/report" (Rev "report.txt" 1 0);
         ChangeDetected report; RevisionWritten report "revs/report" (Rev "report.txt" 2 0)].
Proof. vm_compute. done. Qed.

Lemma recorded_A_NoDup : NoDup (keys (watch recorded_A)).
Proof. apply (bool_decide_unpack _). vm_compute. exact I. Defined.


Lemma revisions_are_write_once_witness :
  files (disk recorded_A) !! ("revs/report", Rev "report.txt" 1 0) = Some (bytes "A") ∧
  files (disk (run content_fingerprint
                 [Tick (reads 1 "B" None); Stop; Reload []; Start; Tick (unreadable 2)]
                 recorded_A).1) !! ("revs/report", Rev "report.txt" 1 0)
  = Some (bytes "A").
Proof.
  assert (files (disk recorded_A) !! ("revs/report", Rev "report.txt" 1 0)
          = Some (bytes "A")) as H by (vm_compute; reflexivity).
  split; [exact H|].
  exact (proj1 (revisions_are_write_once content_fingerprint _ recorded_A _ _ _ _ _ H)).
Defined.

(** A same-named revision gets a suffix: a second revision of the report at
    time 1 is stored as [Rev "report.txt" 1 1]. *)
Example collision_gets_suffix :
  (write report "revs/report" (bytes "B") 1 None (disk recorded_A)).2
  = inr (Rev "report.txt" 1 1).
Proof. vm_compute. reflexivity. Qed.

Definition two_watched : engine content :=
  mkEngine (WatchSet.add "/src/main.py" "revs/main" (watch recorded_A)) true
           (disk recorded_A).

(** The report cannot be read; [main.py] can. *)
Definition report_locked : env :=
  mkEnv 2 (λ p, if decide (p = "/src/main.py") then Some (bytes "print") else None)
        (λ _, None).

Lemma two_watched_NoDup : NoDup (keys (watch two_watched)).
Proof. apply (bool_decide_unpack _). vm_compute. exact I. Defined.

Lemma entry_error_is_contained_witness :
  (NoDup (keys (watch two_watched)) ∧
   getitem report (watch two_watched) = Some entry_A ∧
   read_file report_locked report = None) ∧
  lastFingerprint <$>
    getitem report (watch (cycle content_fingerprint report_locked two_watched).1)
    = Some (lastFingerprint entry_A) ∧
  revisions_written report (cycle content_fingerprint report_locked two_watched).2 = 0.
Proof.
  split; [split_and!; [exact two_watched_NoDup | reflexivity | reflexivity]|].
  pose proof (entry_error_is_contained content_fingerprint report_locked two_watched
                report entry_A two_watched_NoDup eq_refl (or_introl eq_refl)) as H.
  cbv zeta in H. destruct H as (_ & H2 & H3 & _).
  split; [exact H3 | exact H2].
Defined.

Lemma no_error_in_first_cycle :
  ∀ err, EntryError report err ∉
         (cycle content_fingerprint (reads 2 "B" None) recorded_A).2.
Proof.
  intros err Hin.
  assert ((cycle content_fingerprint (reads 2 "B" None) recorded_A).2
          = [ChangeDetected report;
             RevisionWritten report "revs/report" (Rev "report.txt" 2 0)]) as E
    by (vm_compute; reflexivity).
  rewrite E in Hin.
  apply elem_of_cons in Hin as [Hin|Hin]; [discriminate|].
  apply elem_of_cons in Hin as [Hin|Hin]; [discriminate|].
  by apply elem_of_nil in Hin.
Defined.

Lemma unchanged_file_no_new_revision_witness :
  (NoDup (keys (watch recorded_A)) ∧
   getitem report (watch recorded_A) = Some entry_A ∧
   read_file (reads 3 "B" None) report = read_file (reads 2 "B" None) report) ∧
  revisions_written report
    (cycle content_fingerprint (reads 3 "B" None)
       (cycle content_fingerprint (reads 2 "B" None) recorded_A).1).2 = 0.
Proof.
  split; [split_and!; [exact recorded_A_NoDup | reflexivity | reflexivity]|].
  exact (proj1 (unchanged_file_no_new_revision content_fingerprint
                  (reads 2 "B" None) (reads 3 "B" None) recorded_A report entry_A
                  recorded_A_NoDup eq_refl eq_refl no_error_in_first_cycle)).
Defined.

(** C3 as stated fails: the report, recorded as "A", has been changed to "B"
    and reads "B" in both cycles, but the first cycle could not write its
    revision (the disk failed at the first step), so the fingerprint was not
    advanced and the second cycle writes the revision. *)
Lemma unchanged_after_failed_write_counterexample :
  read_file (reads 3 "B" None) report = read_file (reads 2 "B" (Some 0)) report ∧
  (cycle content_fingerprint (reads 2 "B" (Some 0)) recorded_A).2
    = [ChangeDetected report; EntryError report WriteError] ∧
  revisions_written report
    (cycle content_fingerprint (reads 3 "B" None)
       (cycle content_fingerprint (reads 2 "B" (Some 0)) recorded_A).1).2 = 1.
Proof. vm_compute. done. Qed.

(** *** One change, several changes, under the strategies of the specification *)


Definition size_mtime (found : file_stat) : nat * timestamp :=
  (length (st_content found), st_mtime found).

(** At time [t] the report holds [c] and carries the modification time [m];
    writing fails at step [failure]. *)
Definition finds (t : timestamp) (c : string) (m : timestamp) (failure : option nat)
    : stat_env :=
  mkStatEnv (reads t c failure) (λ _, m).


(** The engine with the report recorded at time 1 under the fingerprint
    [fp], its content "A" on disk as the first revision. *)
Definition recorded {Fp} (fp : Fp) : engine Fp :=
  mkEngine [(report, mkEntry "revs/report" (Some fp) (Some 1))] true (disk recorded_A).






(** Where the modification time does move with each rewrite, the size and
    modification time strategy sees the same history as a change and
    writes one revision, holding "A" again. *)
Example size_mtime_sees_rewrite :
  let r := cycle_stat size_mtime (finds 2 "A" 3 None)
             (recorded (size_mtime (mkStat (bytes "A") 1))) in
  revisions_written report r.2 = 1 ∧
  files (disk r.1) !! ("revs/report", Rev "report.txt" 2 0) = Some (bytes "A").
Proof. vm_compute. done. Qed.

(** And the same strategy misses a single rewrite that keeps the size
    within one tick of the filesystem's clock: "A" to "B", both found with
    modification time 1. *)
Example size_mtime_misses_same_size_edit :
  bytes "B" ≠ bytes "A" ∧
  revisions_written report
    (cycle_stat size_mtime (finds 2 "B" 1 None)
       (recorded (size_mtime (mkStat (bytes "A") 1)))).2 = 0.
Proof. split; [by vm_compute|]. vm_compute. reflexivity. Qed.

End Engine.

(** ** The configuration panel: saving, selecting, searching

    Further facts about the callbacks of [FileRevisionTracker], on the
    definitions of module [Gui]. *)
Module Panel.

Import Dict Gui.

(** The rows [write_to_csv] leaves in [file_config.csv] for a mapping. *)
Definition csv_of (d : dict string) : list (list string) :=
  ["file_path"; "revision_dir"] ::
  map (λ '(path, revision_dir), [path; revision_dir]) (items d).

(** The callbacks that call [write_to_csv] succeed in doing so. *)
Definition io_ok (a : action) : bool :=
  match a with
  | Add _ _ io | Edit _ _ io | Delete _ io => io
  | TypeSearch _ | ResetSearch | Fire _ => true
  end.

Definition is_search (a : action) : bool :=
  match a with
  | TypeSearch _ | ResetSearch | Fire _ => true
  | Add _ _ _ | Edit _ _ _ | Delete _ _ => false
  end.

(** The file holds the mapping. *)
Definition saved (g : gui) : Prop :=
  file_config_csv g = csv_of (FILE_PATHS g).

(** At most one search is pending, and it is the one [_after_id] names. *)
Definition debounced (g : gui) : Prop :=
  length (pending g) ≤ 1 ∧ ∀ i, i ∈ pending g → _after_id g = Some i.

Lemma setitem_new {V} k (v : V) d :
  getitem k d = None → setitem k v d = d ++ [(k, v)].
Proof.
  induction d as [|[k' v'] d IH]; simpl; [done|].
  case_decide; [done|]. intros Hg. by rewrite IH.
Qed.

Lemma remove_snoc {V} k (v : V) d :
  getitem k d = None → remove k (d ++ [(k, v)]) = d.
Proof.
  induction d as [|[k' v'] d IH]; simpl.
  - by rewrite decide_True.
  - case_decide; [done|]. intros Hg. by rewrite IH.
Qed.

Lemma filter_all_keys {V} k (d : list (string * V)) :
  getitem k d = None → filter (λ kv, kv.1 ≠ k) d = d.
Proof.
  induction d as [|[k' v'] d IH]; [done|]. cbn [getitem].
  case_decide; [done|]. intros Hg. rewrite filter_cons. cbn [fst].
  rewrite decide_True by done. f_equal. auto.
Qed.

Lemma remove_filter {V} k (d : list (string * V)) :
  NoDup (keys d) → remove k d = filter (λ kv, kv.1 ≠ k) d.
Proof.
  induction d as [|[k' v'] d IH]; [done|].
  intros [Hk Hd]%NoDup_cons. rewrite filter_cons. cbn [remove fst].
  destruct (decide (k = k')) as [->|Hne].
  - rewrite decide_False by naive_solver.
    symmetry. apply filter_all_keys. by apply getitem_None.
  - rewrite decide_True by done. f_equal. auto.
Qed.

Lemma length_remove {V} k (v : V) d :
  getitem k d = Some v → length (remove k d) + 1 = length d.
Proof.
  induction d as [|[k' v'] d IH]; simpl; [done|].
  case_decide; [lia|]. intros Hg. simpl. rewrite <- IH by done. lia.
Qed.

Lemma delete_file_config_spec i sel path old dir io g :
  table g !! i = Some (path, old) → getitem path (FILE_PATHS g) = Some dir →
  delete_file_config (i :: sel) io g =
  let g1 := with_FILE_PATHS (remove path (FILE_PATHS g)) g in
  if io then
    (with_table (items (FILE_PATHS g1)) (with_csv (csv_of (FILE_PATHS g1)) g1), inr ())
  else (g1, inl OSError).
Proof.
  intros Hi Hp. unfold delete_file_config, table_item, delitem. munfold.
  rewrite Hi. simpl. rewrite Hp. simpl.
  destruct io; munfold; [|done]. by rewrite load_file_config_data_spec.
Qed.

(** What one callback can do to each part of the panel. *)
Lemma run_action_cases lower a g :
  let g' := (run_action lower a g).1 in
  (is_search a = false →
     search_var g' = search_var g ∧ _after_id g' = _after_id g ∧
     pending g' = pending g ∧ next_after g' = next_after g) ∧
  (is_search a = true →
     FILE_PATHS g' = FILE_PATHS g ∧ file_config_csv g' = file_config_csv g) ∧
  (io_ok a = true →
     (FILE_PATHS g' = FILE_PATHS g ∧ file_config_csv g' = file_config_csv g ∧
      (is_search a = false → table g' = table g)) ∨
     (file_config_csv g' = csv_of (FILE_PATHS g') ∧ table g' = items (FILE_PATHS g'))).
Proof.
  destruct a as [p od io|sel od io|sel io|s| |i]; simpl.
  - split_and!; [intros _|done|intros ->].
    + unfold add_file_config. destruct (truthy p); [|done].
      destruct od as [d|]; [|done]. destruct (truthy d); [|done].
      destruct io; munfold; [|done]. by rewrite load_file_config_data_spec.
    + unfold add_file_config. destruct (truthy p); [|by left].
      destruct od as [d|]; [|by left]. destruct (truthy d); [|by left].
      right. munfold. by rewrite load_file_config_data_spec.
  - split_and!; [intros _|done|intros ->].
    + destruct sel as [|i sel]; [done|].
      unfold edit_file_config, table_item. munfold.
      destruct (table g !! i) as [[p old]|]; simpl; [|done].
      destruct od as [d|]; [|done]. destruct (truthy d); [|done].
      destruct io; munfold; [|done]. by rewrite load_file_config_data_spec.
    + destruct sel as [|i sel]; [by left|].
      unfold edit_file_config, table_item. munfold.
      destruct (table g !! i) as [[p old]|]; simpl; [|by left].
      destruct od as [d|]; [|by left]. destruct (truthy d); [|by left].
      right. munfold. by rewrite load_file_config_data_spec.
  - split_and!; [intros _|done|intros ->].
    + destruct sel as [|i sel]; [done|].
      unfold delete_file_config, table_item, delitem. munfold.
      destruct (table g !! i) as [[p old]|]; simpl; [|done].
      destruct (getitem p (FILE_PATHS g)); simpl; [|done].
      destruct io; munfold; [|done]. by rewrite load_file_config_data_spec.
    + destruct sel as [|i sel]; [by left|].
      unfold delete_file_config, table_item, delitem. munfold.
      destruct (table g !! i) as [[p old]|]; simpl; [|by left].
      destruct (getitem p (FILE_PATHS g)); simpl; [|by left].
      right. munfold. by rewrite load_file_config_data_spec.
  - split_and!; [done|done|intros _; by left].
  - split_and!; [done| |intros _; left];
      unfold reset_search, search_var_set, delayed_search; munfold;
      by rewrite load_file_config_data_spec.
  - split_and!; [done| |intros _; left];
      unfold after_fire; munfold; (case_decide; [|done]);
      by rewrite search_files_spec.
Qed.

(** *** Adding, deleting, cancelling *)

(** X1.  Adding a path that the mapping does not hold appends it: the
    mapping, the table and the rows of the configuration file are the old
    mapping followed by the new pair, whatever the table showed before (a
    search result, say); the search term and the pending search are left
    alone. *)
Theorem add_new_path_appends_row (g : gui) path dir :
  truthy path = true → truthy dir = true →
  getitem path (FILE_PATHS g) = None →
  let r := add_file_config path (Some dir) true g in
  r.2 = inr () ∧
  FILE_PATHS r.1 = FILE_PATHS g ++ [(path, dir)] ∧
  table r.1 = items (FILE_PATHS g) ++ [(path, dir)] ∧
  file_config_csv r.1 = csv_of (FILE_PATHS g ++ [(path, dir)]) ∧
  search_var r.1 = search_var g ∧ pending r.1 = pending g.
Proof.
  intros Hp Hd Hnew. cbv zeta. rewrite add_file_config_spec by done.
  cbv zeta. simpl. by rewrite (setitem_new _ _ _ Hnew).
Qed.

Lemma add_new_path_appends_row_witness :
  getitem "/etc/hosts" (FILE_PATHS two_files) = None ∧
  table (add_file_config "/etc/hosts" (Some "revs/hosts") true two_files).1
  = [("/data/report.txt", "revs/report"); ("/src/main.py", "Backup");
     ("/etc/hosts", "revs/hosts")].
Proof.
  split; [reflexivity|].
  exact (proj1 (proj2 (proj2
    (add_new_path_appends_row two_files "/etc/hosts" "revs/hosts"
       eq_refl eq_refl eq_refl)))).
Defined.

(** X2.  A callback that is given nothing to do does nothing and does not
    fail: Add when the file dialog is cancelled, or the directory dialog is
    cancelled or answered with the empty string; Edit and Delete without a
    selected row; Edit when its dialog is cancelled or answered with the
    empty string.  The panel is exactly as before, also when the
    configuration file could not have been written. *)
Theorem cancelled_callbacks_change_nothing (g : gui) :
  (∀ dir io, add_file_config EmptyString dir io g = (g, inr ())) ∧
  (∀ path io, add_file_config path None io g = (g, inr ())) ∧
  (∀ path io, add_file_config path (Some EmptyString) io g = (g, inr ())) ∧
  (∀ dir io, edit_file_config [] dir io g = (g, inr ())) ∧
  (∀ i sel io, is_Some (table g !! i) →
     edit_file_config (i :: sel) None io g = (g, inr ()) ∧
     edit_file_config (i :: sel) (Some EmptyString) io g = (g, inr ())) ∧
  (∀ io, delete_file_config [] io g = (g, inr ())).
Proof.
  split_and!; try done.
  - intros path io. unfold add_file_config. by destruct (truthy path).
  - intros path io. unfold add_file_config. by destruct (truthy path).
  - intros i sel io [[p old] Hi]. unfold edit_file_config, table_item. munfold.
    by rewrite Hi.
Qed.

(** X3.  Deleting the selected row of a registered path removes that path
    and nothing else: the path is gone from the mapping, every other path
    keeps its directory and its place, the mapping is one entry shorter, and
    the table and the configuration file hold the new mapping. *)
Theorem delete_removes_only_selected_path (g : gui) i sel path old dir :
  NoDup (keys (FILE_PATHS g)) →
  table g !! i = Some (path, old) →
  getitem path (FILE_PATHS g) = Some dir →
  let r := delete_file_config (i :: sel) true g in
  r.2 = inr () ∧
  getitem path (FILE_PATHS r.1) = None ∧
  (∀ q, q ≠ path → getitem q (FILE_PATHS r.1) = getitem q (FILE_PATHS g)) ∧
  FILE_PATHS r.1 = filter (λ kv, kv.1 ≠ path) (items (FILE_PATHS g)) ∧
  length (FILE_PATHS r.1) + 1 = length (FILE_PATHS g) ∧
  table r.1 = items (FILE_PATHS r.1) ∧
  file_config_csv r.1 = csv_of (FILE_PATHS r.1).
Proof.
  intros Hnd Hi Hp. cbv zeta.
  rewrite (delete_file_config_spec _ _ _ _ _ _ _ Hi Hp). cbv zeta. simpl.
  split_and!; try done.
  - by rewrite getitem_remove, decide_True.
  - intros q Hq. by rewrite getitem_remove, decide_False.
  - by apply remove_filter.
  - by apply length_remove with dir.
Qed.

Lemma delete_removes_only_selected_path_witness :
  (NoDup (keys (FILE_PATHS two_files)) ∧
   table two_files !! 0 = Some ("/data/report.txt", "revs/report")) ∧
  FILE_PATHS (delete_file_config [0] true two_files).1
  = filter (λ kv, kv.1 ≠ "/data/report.txt") (items (FILE_PATHS two_files)).
Proof.
  assert (NoDup (keys (FILE_PATHS two_files))) as H.
  { apply (bool_decide_unpack _). vm_compute. exact I. }
  split; [split; [exact H | reflexivity]|].
  exact (proj1 (proj2 (proj2 (proj2
    (delete_removes_only_selected_path two_files 0 [] "/data/report.txt"
       "revs/report" "revs/report" H eq_refl eq_refl))))).
Defined.

(** X4.  When [file_config.csv] cannot be opened for writing, Add, Edit and
    Delete raise [OSError] after the mapping has been changed and before the
    table is reloaded: the mapping holds the change, the file and the table
    are as they were. *)
Theorem failed_save_keeps_change_unsaved_and_unshown (g : gui) :
  (∀ path dir, truthy path = true → truthy dir = true →
     let r := add_file_config path (Some dir) false g in
     r.2 = inl OSError ∧
     FILE_PATHS r.1 = setitem path dir (FILE_PATHS g) ∧
     table r.1 = table g ∧ file_config_csv r.1 = file_config_csv g) ∧
  (∀ i sel path old dir, table g !! i = Some (path, old) → truthy dir = true →
     let r := edit_file_config (i :: sel) (Some dir) false g in
     r.2 = inl OSError ∧
     FILE_PATHS r.1 = setitem path dir (FILE_PATHS g) ∧
     table r.1 = table g ∧ file_config_csv r.1 = file_config_csv g) ∧
  (∀ i sel path old dir, table g !! i = Some (path, old) →
     getitem path (FILE_PATHS g) = Some dir →
     let r := delete_file_config (i :: sel) false g in
     r.2 = inl OSError ∧
     FILE_PATHS r.1 = remove path (FILE_PATHS g) ∧
     table r.1 = table g ∧ file_config_csv r.1 = file_config_csv g).
Proof.
  split_and!.
  - intros path dir Hp Hd. cbv zeta. by rewrite add_file_config_spec.
  - intros i sel path old dir Hi Hd. cbv zeta.
    by rewrite (edit_file_config_spec _ _ _ _ _ _ _ Hi Hd).
  - intros i sel path old dir Hi Hp. cbv zeta.
    by rewrite (delete_file_config_spec _ _ _ _ _ _ _ Hi Hp).
Qed.

(** X5.  As long as every callback that saves can write the file, the
    configuration file holds the mapping: if it does before a sequence of
    callbacks (additions, edits, deletions, searches, timers, also those
    that raise [KeyError]), it does after it. *)
Theorem config_file_follows_mapping lower (acts : list action) (g : gui) :
  saved g → Forall (λ a, io_ok a = true) acts →
  saved (mainloop lower acts g).
Proof.
  intros Hs Hio. revert g Hs.
  induction Hio as [|a acts Ha _ IH]; intros g Hs; [done|].
  simpl. apply IH.
  destruct (run_action_cases lower a g) as (_ & _ & Hc). cbv zeta in Hc.
  destruct (Hc Ha) as [(Hf & Hcsv & _)|[Hcsv _]]; [|done].
  unfold saved in *. by rewrite Hcsv, Hf.
Qed.

Definition two_files_saved : gui :=
  with_csv (csv_of (FILE_PATHS two_files)) two_files.

Lemma config_file_follows_mapping_witness :
  saved two_files_saved ∧
  saved (mainloop str_lower
    [Add "/etc/hosts" (Some "revs/hosts") true; TypeSearch "host"; Delete [7] true;
     Fire 0; Edit [0] (Some "revs/h2") true; Delete [0] true] two_files_saved).
Proof.
  assert (saved two_files_saved) as H by reflexivity.
  split; [exact H|].
  apply (config_file_follows_mapping str_lower _ two_files_saved H).
  repeat constructor.
Defined.

(** X6.  Adding an unregistered path and then deleting its row, the last
    one of the table, gives back the mapping as it was, and the table and
    the configuration file hold it. *)
Theorem add_then_delete_restores_mapping lower (g : gui) path dir :
  truthy path = true → truthy dir = true →
  getitem path (FILE_PATHS g) = None →
  let g' := mainloop lower
              [Add path (Some dir) true; Delete [length (FILE_PATHS g)] true] g in
  FILE_PATHS g' = FILE_PATHS g ∧
  table g' = items (FILE_PATHS g) ∧
  file_config_csv g' = csv_of (FILE_PATHS g).
Proof.
  intros Hp Hd Hnew. cbv zeta. unfold mainloop. cbn [foldl run_action].
  rewrite add_file_config_spec by done. cbv zeta. cbn [fst].
  rewrite (setitem_new _ _ _ Hnew).
  rewrite (delete_file_config_spec _ [] path dir dir true).
  - cbv zeta. simpl. by rewrite remove_snoc.
  - simpl. unfold items. by rewrite list_lookup_middle.
  - simpl. rewrite <- (setitem_new _ dir _ Hnew).
    by rewrite getitem_setitem, decide_True.
Qed.

Lemma add_then_delete_restores_mapping_witness :
  getitem "/etc/hosts" (FILE_PATHS two_files) = None ∧
  FILE_PATHS (mainloop str_lower
    [Add "/etc/hosts" (Some "revs/hosts") true; Delete [2] true] two_files)
  = FILE_PATHS two_files.
Proof.
  split; [reflexivity|].
  exact (proj1 (add_then_delete_restores_mapping str_lower two_files
                  "/etc/hosts" "revs/hosts" eq_refl eq_refl eq_refl)).
Defined.

(** *** The table and the search *)

(** The table shows rows of the mapping only, in the mapping's order. *)
Definition shown_in_mapping (g : gui) : Prop :=
  table g `sublist_of` items (FILE_PATHS g).

Lemma search_action_table lower a g :
  is_search a = true →
  table (run_action lower a g).1 = table g ∨
  ∃ P : string * string → bool,
    table (run_action lower a g).1 = filter P (items (FILE_PATHS g)).
Proof.
  destruct a as [p od io|sel od io|sel io|s| |i]; simpl; try done; intros _.
  - by left.
  - right. exists (λ _, true).
    unfold reset_search, search_var_set, delayed_search. munfold.
    rewrite load_file_config_data_spec. simpl. symmetry.
    by apply (filter_all (λ _ : string * string, true)).
  - unfold after_fire. munfold. case_decide; [|by left].
    right. eexists. by rewrite search_files_spec.
Qed.

(** X7.  As long as the configuration file can be written, the table never
    shows a row that the mapping does not hold: if its rows are rows of the
    mapping, in the mapping's order, before a sequence of callbacks, they
    are after it. *)
Theorem table_shows_rows_of_mapping lower (acts : list action) (g : gui) :
  shown_in_mapping g → Forall (λ a, io_ok a = true) acts →
  shown_in_mapping (mainloop lower acts g).
Proof.
  intros Hs Hio. revert g Hs.
  induction Hio as [|a acts Ha _ IH]; intros g Hs; [done|].
  simpl. apply IH. unfold shown_in_mapping in *.
  destruct (run_action_cases lower a g) as (_ & Hsearch & Hc). cbv zeta in Hc, Hsearch.
  destruct (Hc Ha) as [(Hf & _ & Ht)|[_ Ht]]; [|by rewrite Ht].
  rewrite Hf. destruct (is_search a) eqn:Ea.
  - destruct (search_action_table lower a g Ea) as [->|[P ->]]; [done|].
    apply sublist_filter.
  - by rewrite Ht.
Qed.

Lemma table_shows_rows_of_mapping_witness :
  shown_in_mapping two_files ∧
  shown_in_mapping (mainloop str_lower
    [TypeSearch "main"; Fire 0; Add "/etc/hosts" (Some "revs/hosts") true;
     TypeSearch "zzz"; Fire 1; Delete [0] true; ResetSearch] two_files).
Proof.
  assert (shown_in_mapping two_files) as H by (unfold shown_in_mapping; reflexivity).
  split; [exact H|].
  apply (table_shows_rows_of_mapping str_lower _ two_files H).
  repeat constructor.
Defined.

(** X8.  Searching never changes what is watched or saved: typing in the
    search box, Reset and the search timers leave the mapping and the
    configuration file as they are. *)
Theorem searching_leaves_mapping_and_file lower (acts : list action) (g : gui) :
  Forall (λ a, is_search a = true) acts →
  FILE_PATHS (mainloop lower acts g) = FILE_PATHS g ∧
  file_config_csv (mainloop lower acts g) = file_config_csv g.
Proof.
  intros Hs. revert g. induction Hs as [|a acts Ha _ IH]; intros g; [done|].
  simpl. destruct (IH (run_action lower a g).1) as [-> ->].
  destruct (run_action_cases lower a g) as (_ & Hsearch & _).
  by apply Hsearch.
Qed.

Lemma searching_leaves_mapping_and_file_witness :
  FILE_PATHS (mainloop str_lower
    [TypeSearch "rep"; TypeSearch "repo"; Fire 1; ResetSearch; Fire 0; Fire 2] two_files)
  = FILE_PATHS two_files.
Proof.
  apply (searching_leaves_mapping_and_file str_lower _ two_files).
  repeat constructor.
Defined.

Lemma debounced_filter g i :
  debounced g → _after_id g = Some i → filter (λ j, j ≠ i) (pending g) = [].
Proof.
  intros [Hlen Hin] Hi. destruct (pending g) as [|j [|? ?]]; simpl in *; [done| |lia].
  rewrite filter_cons, decide_False; [done|].
  intros Hne. apply Hne. specialize (Hin j (list_elem_of_here _ _)). congruence.
Qed.

Lemma delayed_search_pending g :
  debounced g → pending (delayed_search g).1 = [next_after g].
Proof.
  intros Hd. unfold delayed_search. munfold.
  destruct (_after_id g) as [i|] eqn:Hi.
  - by rewrite (debounced_filter g i).
  - destruct Hd as [_ Hin]. destruct (pending g) as [|j ?]; [done|].
    specialize (Hin j (list_elem_of_here _ _)). congruence.
Qed.

Lemma run_action_debounced lower a g :
  debounced g → debounced (run_action lower a g).1.
Proof.
  intros Hd. destruct (is_search a) eqn:Ea.
  - destruct a as [p od io|sel od io|sel io|s| |i]; try done; simpl.
    + pose proof (delayed_search_pending (with_search_var s g) Hd) as Hp.
      unfold search_var_set. munfold. unfold debounced.
      rewrite Hp. simpl. split; [lia|]. by intros i ->%list_elem_of_singleton.
    + pose proof (delayed_search_pending (with_search_var EmptyString g) Hd) as Hp.
      unfold reset_search, search_var_set. munfold.
      rewrite load_file_config_data_spec. unfold debounced. simpl.
      rewrite Hp. simpl. split; [lia|]. by intros i ->%list_elem_of_singleton.
    + unfold after_fire. munfold. case_decide; [|done].
      rewrite search_files_spec. unfold debounced. simpl.
      destruct Hd as [Hlen Hin]. split.
      * etrans; [apply length_filter|done].
      * intros j [_ Hj]%list_elem_of_filter. by apply Hin.
  - destruct (run_action_cases lower a g) as (Hm & _ & _). cbv zeta in Hm.
    destruct (Hm Ea) as (_ & Ha & Hp & _). unfold debounced. by rewrite Ha, Hp.
Qed.

(** X9.  The search is debounced: if at most one search is pending and it is
    the one [_after_id] names, as when the window opens, this stays so
    through every sequence of callbacks; a new keystroke cancels the search
    scheduled by the previous one. *)
Theorem at_most_one_search_pending lower (acts : list action) (g : gui) :
  debounced g →
  debounced (mainloop lower acts g) ∧
  ∀ s, pending (search_var_set s (mainloop lower acts g)).1
       = [next_after (mainloop lower acts g)].
Proof.
  intros Hd.
  assert (debounced (mainloop lower acts g)) as Hd'.
  { revert g Hd. induction acts as [|a acts IH]; intros g Hd; [done|].
    simpl. by apply IH, run_action_debounced. }
  split; [done|]. intros s.
  by apply (delayed_search_pending (with_search_var s (mainloop lower acts g))).
Qed.

Lemma at_most_one_search_pending_witness :
  debounced two_files ∧
  debounced (mainloop str_lower
    [TypeSearch "r"; TypeSearch "re"; TypeSearch "rep"; Fire 1; ResetSearch;
     Add "/etc/hosts" (Some "revs/hosts") true] two_files).
Proof.
  assert (debounced two_files) as H.
  { split; [simpl; lia|]. intros i Hi. by apply elem_of_nil in Hi. }
  split; [exact H|].
  exact (proj1 (at_most_one_search_pending str_lower _ two_files H)).
Defined.

Lemma mainloop_cons lower a acts g :
  mainloop lower (a :: acts) g = mainloop lower acts (run_action lower a g).1.
Proof. reflexivity. Qed.

Lemma typing_burst lower (terms : list string) (g : gui) :
  debounced g →
  debounced (mainloop lower (TypeSearch <$> terms) g) ∧
  next_after (mainloop lower (TypeSearch <$> terms) g) = next_after g + length terms ∧
  FILE_PATHS (mainloop lower (TypeSearch <$> terms) g) = FILE_PATHS g ∧
  table (mainloop lower (TypeSearch <$> terms) g) = table g.
Proof.
  revert g. induction terms as [|t terms IH]; intros g Hd.
  - simpl. split_and!; [done|lia|done..].
  - rewrite fmap_cons, mainloop_cons. cbn [run_action].
    destruct (IH (search_var_set t g).1) as (H1 & H2 & H3 & H4).
    { by apply (run_action_debounced lower (TypeSearch t)). }
    rewrite H2, H3, H4. split_and!; [done|..];
      unfold search_var_set, delayed_search; munfold; [lia|done..].
Qed.

(** X10.  Of several terms typed one after the other before any timer
    fires, only the last is searched for: one search is pending, firing it
    fills the table with the rows matching the last term, and the timers of
    the earlier keystrokes do nothing. *)
Theorem only_last_typed_term_is_searched lower (terms : list string) (s : string)
    (g : gui) :
  debounced g →
  let typed := mainloop lower (TypeSearch <$> terms ++ [s]) g in
  let last_timer := next_after g + length terms in
  pending typed = [last_timer] ∧
  search_var typed = s ∧
  table typed = table g ∧
  table (after_fire lower last_timer typed).1
    = filter (matches lower (lower s)) (items (FILE_PATHS g)) ∧
  ∀ i, i ≠ last_timer → after_fire lower i typed = (typed, inr ()).
Proof.
  intros Hd typed last_timer.
  destruct (typing_burst lower terms g Hd) as (Hd1 & Hn1 & Hf1 & Ht1).
  assert (typed = (search_var_set s (mainloop lower (TypeSearch <$> terms) g)).1)
    as Htyped.
  { subst typed. unfold mainloop. by rewrite fmap_app, foldl_app. }
  assert (pending typed = [last_timer]) as Hp.
  { rewrite Htyped. subst last_timer. rewrite <- Hn1.
    by apply (delayed_search_pending (with_search_var s _)). }
  assert (search_var typed = s ∧ FILE_PATHS typed = FILE_PATHS g ∧ table typed = table g)
    as (Hs & Hf & Ht).
  { rewrite Htyped. unfold search_var_set, delayed_search. munfold. by rewrite Hf1, Ht1. }
  split_and!; try done.
  - unfold after_fire. munfold. rewrite Hp.
    rewrite decide_True by apply list_elem_of_here.
    rewrite search_files_spec. simpl. by rewrite Hs, Hf.
  - intros i Hi. unfold after_fire. munfold. rewrite Hp.
    rewrite decide_False; [done|]. by intros ->%list_elem_of_singleton.
Qed.

Lemma only_last_typed_term_is_searched_witness :
  debounced two_files ∧
  table (after_fire str_lower 2
           (mainloop str_lower (TypeSearch <$> ["m"; "ma"] ++ ["MAIN"]) two_files)).1
  = [("/src/main.py", "Backup")].
Proof.
  assert (debounced two_files) as H.
  { split; [simpl; lia|]. intros i Hi. by apply elem_of_nil in Hi. }
  split; [exact H|].
  exact (proj1 (proj2 (proj2 (proj2
    (only_last_typed_term_is_searched str_lower ["m"; "ma"] "MAIN" two_files H))))).
Defined.

Lemma append_assoc a b c :
  String.append (String.append a b) c = String.append a (String.append b c).
Proof. induction a as [|x a IH]; [done|]. rewrite !append_String. by rewrite IH. Qed.

Lemma substring_trans a b c : substring a b → substring b c → substring a c.
Proof.
  intros (x & y & ->) (x' & y' & ->).
  exists (String.append x' x), (String.append y y').
  by rewrite !append_assoc.
Qed.

(** X11.  Refining the search term narrows the result: when the lowercased
    term of one search occurs in the lowercased term of another, the rows
    shown for the longer term are among the rows shown for the shorter one,
    in the same order, and they are what the longer term keeps of them. *)
Theorem refining_search_narrows lower (g : gui) (s1 s2 : string) :
  substring (lower s1) (lower s2) →
  let shown s := table (search_files lower (with_search_var s g)).1 in
  shown s2 `sublist_of` shown s1 ∧
  shown s2 = filter (matches lower (lower s2)) (shown s1).
Proof.
  intros Hsub shown. subst shown. cbv beta. rewrite !search_files_spec. simpl.
  assert (filter (matches lower (lower s2)) (items (FILE_PATHS g))
          = filter (matches lower (lower s2))
              (filter (matches lower (lower s1)) (items (FILE_PATHS g)))) as E.
  { rewrite list_filter_filter. apply list_filter_iff. intros [p d].
    split; [|tauto]. intros Hm. split; [done|].
    unfold matches in *. simpl in *.
    apply Is_true_true in Hm. apply Is_true_true.
    apply orb_true_iff in Hm. apply orb_true_iff.
    destruct Hm as [Hm|Hm]; [left|right]; apply str_in_spec;
      apply str_in_spec in Hm; by apply (substring_trans _ (lower s2)). }
  split; [|done]. rewrite E. apply sublist_filter.
Qed.

Lemma refining_search_narrows_witness :
  substring (str_lower "Rep") (str_lower "REPORT") ∧
  table (search_files str_lower (with_search_var "REPORT" two_files)).1
  = filter (matches str_lower (str_lower "REPORT"))
      (table (search_files str_lower (with_search_var "Rep" two_files)).1).
Proof.
  assert (substring (str_lower "Rep") (str_lower "REPORT")) as H.
  { apply str_in_spec. reflexivity. }
  split; [exact H|].
  exact (proj2 (refining_search_narrows str_lower two_files "Rep" "REPORT" H)).
Defined.

End Panel.

(** ** The log panel

    [TextHandler.emit], [_load_initial_log_data] and [_setup_log_text]. *)
Module LogPanel.

Import Gui.

Definition MAX_LOG_LINES : nat := 100.

Definition newline : Ascii.ascii := Ascii.ascii_of_nat 10.

(** ['\n'] *)
Definition nl : string := String newline EmptyString.

(** [''.join(lines)] *)
Definition join (lines : list string) : string :=
  foldr String.append EmptyString lines.

(** [f.readlines()] on the text of a file opened in text mode: the text cut
    after each newline. *)
Fixpoint readlines (text : string) : list string :=
  match text with
  | EmptyString => []
  | String c rest =>
      if decide (c = newline) then String c EmptyString :: readlines rest
      else match readlines rest with
           | [] => [String c EmptyString]
           | line :: lines => String c line :: lines
           end
  end.

(** A [tk.Text]: what has been inserted into it and its [state] option.  A
    disabled widget ignores [insert]. *)
Inductive tk_state := NORMAL | DISABLED.

Record tk_text := mkText {
  contents : string;
  state : tk_state;
}.

(** [tk.Text(...)] *)
Definition new_text : tk_text := mkText EmptyString NORMAL.

(** [w.config(state=st)] *)
Definition config_state (st : tk_state) (w : tk_text) : tk_text :=
  mkText (contents w) st.

(** [w.insert(tk.END, s)]; [w.see(tk.END)], which follows it in both
    callers, only scrolls. *)
Definition insert_end (s : string) (w : tk_text) : tk_text :=
  match state w with
  | NORMAL => mkText (String.append (contents w) s) NORMAL
  | DISABLED => w
  end.

(** [lines[-MAX_LOG_LINES:]] *)
Definition last_lines (lines : list string) : list string :=
  drop (length lines - MAX_LOG_LINES) lines.

(** [log_file] is the text of [file_revision.log], [None] when it cannot
    be opened. *)
Definition _load_initial_log_data (log_file : option string) (log_text : tk_text)
    : exn + tk_text :=
  match log_file with
  | None => inl OSError
  | Some text =>
      let lines := readlines text in
      inr (foldl (λ w line, insert_end line w) log_text (last_lines lines))
  end.

Definition _setup_log_text (log_file : option string) : exn + tk_text :=
  match _load_initial_log_data log_file new_text with
  | inl e => inl e
  | inr log_text => inr (config_state DISABLED log_text)
  end.

(** [TextHandler.emit], with [log_entry] the formatted record. *)
Definition emit (log_entry : string) (text_widget : tk_text) : tk_text :=
  let w := config_state NORMAL text_widget in
  let w := insert_end (String.append log_entry nl) w in
  config_state DISABLED w.

(** The records a logger hands to the handler, one after the other. *)
Definition emit_all (log_entries : list string) (w : tk_text) : tk_text :=
  foldl (λ w e, emit e w) w log_entries.

Lemma append_nil_r s : String.append s EmptyString = s.
Proof. induction s as [|c s IH]; [done|]. by rewrite append_String, IH. Qed.

Lemma join_app a b : join (a ++ b) = String.append (join a) (join b).
Proof.
  induction a as [|x a IH]; [done|]. simpl. rewrite IH.
  by rewrite Panel.append_assoc.
Qed.

Lemma join_readlines text : join (readlines text) = text.
Proof.
  induction text as [|c rest IH]; [done|]. simpl.
  case_decide; simpl; [by rewrite IH|].
  destruct (readlines rest) as [|line lines]; simpl in *; by rewrite <- IH.
Qed.

Lemma insert_lines lines (w : tk_text) :
  state w = NORMAL →
  foldl (λ w line, insert_end line w) w lines
  = mkText (String.append (contents w) (join lines)) NORMAL.
Proof.
  revert w. induction lines as [|l lines IH]; intros [c st] Hst; simpl in *; subst.
  - by rewrite append_nil_r.
  - rewrite IH by done. simpl. by rewrite Panel.append_assoc.
Qed.

(** The text is empty or ends with a newline. *)
Definition ends_lines (text : string) : Prop :=
  text = EmptyString ∨ ∃ body, text = String.append body nl.

Lemma readlines_nil text : readlines text = [] → text = EmptyString.
Proof.
  destruct text as [|c rest]; [done|]. simpl. case_decide; [done|].
  by destruct (readlines rest).
Qed.

Lemma readlines_app_nl body rest :
  readlines (String.append (String.append body nl) rest)
  = readlines (String.append body nl) ++ readlines rest.
Proof.
  induction body as [|c body IH].
  - reflexivity.
  - rewrite !append_String. cbn [readlines]. case_decide.
    + by rewrite IH.
    + rewrite IH.
      destruct (readlines (String.append body nl)) as [|line lines] eqn:E; [|done].
      apply readlines_nil in E. by destruct body.
Qed.

Lemma readlines_app text rest :
  ends_lines text →
  readlines (String.append text rest) = readlines text ++ readlines rest.
Proof. intros [->|[body ->]]; [done|]. apply readlines_app_nl. Qed.

Lemma readlines_one_line e :
  str_in nl e = false → readlines (String.append e nl) = [String.append e nl].
Proof.
  induction e as [|c e IH]; intros Hno.
  - reflexivity.
  - rewrite append_String. cbn [readlines].
    cbn [str_in str_prefix nl] in Hno. apply orb_false_iff in Hno as [Hc He].
    destruct (decide (newline = c)) as [->|Hne]; [by destruct e|].
    rewrite decide_False by done. by rewrite IH.
Qed.

Lemma emit_spec e (w : tk_text) :
  emit e w = mkText (String.append (contents w) (String.append e nl)) DISABLED.
Proof. reflexivity. Qed.

Lemma emit_all_cons e es (w : tk_text) :
  emit_all (e :: es) w = emit_all es (emit e w).
Proof. reflexivity. Qed.

Lemma emit_all_contents log_entries (w : tk_text) :
  contents (emit_all log_entries w)
  = String.append (contents w) (join (map (λ e, String.append e nl) log_entries)).
Proof.
  revert w. induction log_entries as [|e es IH]; intros w.
  - simpl. by rewrite append_nil_r.
  - rewrite emit_all_cons, IH, emit_spec. simpl.
    by rewrite !Panel.append_assoc.
Qed.

(** X12.  The log panel opens with the tail of the log file: the last
    [MAX_LOG_LINES] lines of [file_revision.log], all of them when there are
    no more than that, in the order of the file; what it shows is an end
    piece of the file's text, and the whole text for a short file.  The
    widget is left disabled.  When the file cannot be opened, setting up the
    panel raises. *)
Theorem log_panel_opens_with_tail_of_file (text : string) :
  let lines := readlines text in
  let shown := join (last_lines lines) in
  _setup_log_text (Some text) = inr (mkText shown DISABLED) ∧
  length (last_lines lines) = length lines `min` MAX_LOG_LINES ∧
  text = String.append (join (take (length lines - MAX_LOG_LINES) lines)) shown ∧
  (length lines ≤ MAX_LOG_LINES → shown = text) ∧
  _setup_log_text None = inl OSError.
Proof.
  intros lines shown. subst lines shown. split_and!.
  - unfold _setup_log_text, _load_initial_log_data. cbv zeta.
    by rewrite insert_lines.
  - unfold last_lines. rewrite length_drop. lia.
  - unfold last_lines. rewrite <- join_app, take_drop. by rewrite join_readlines.
  - intros Hshort. unfold last_lines.
    replace (length (readlines text) - MAX_LOG_LINES) with 0 by lia.
    apply join_readlines.
  - done.
Qed.

(** X13.  Records are appended to the log panel and nothing is ever taken
    out of it: after any number of records the panel holds what it held
    before, followed by each record and a newline, in the order they were
    emitted, whatever state the widget was in; it is disabled after every
    record, so that an insert from elsewhere is ignored.  The limit of
    [MAX_LOG_LINES] does not apply to them: when the panel held whole lines
    and the records are single lines, it holds one line more per record. *)
Theorem log_records_accumulate (log_entries : list string) (w : tk_text) :
  contents (emit_all log_entries w)
    = String.append (contents w) (join (map (λ e, String.append e nl) log_entries)) ∧
  (log_entries ≠ [] → state (emit_all log_entries w) = DISABLED) ∧
  (∀ e s, insert_end s (emit e w) = emit e w) ∧
  (ends_lines (contents w) →
   Forall (λ e, str_in nl e = false) log_entries →
   length (readlines (contents (emit_all log_entries w)))
   = length (readlines (contents w)) + length log_entries).
Proof.
  split_and!.
  - apply emit_all_contents.
  - intros Hne. destruct log_entries as [|e es _] using rev_ind; [done|].
    unfold emit_all. by rewrite foldl_app.
  - done.
  - intros Hends Hone. clear -Hends Hone. revert w Hends.
    induction Hone as [|e es He _ IH]; intros w Hends; [simpl; lia|].
    rewrite emit_all_cons, IH.
    + rewrite emit_spec. simpl.
      rewrite readlines_app, length_app, readlines_one_line by done. simpl. lia.
    + rewrite emit_spec. simpl. right.
      exists (String.append (contents w) e). by rewrite Panel.append_assoc.
Qed.

(** A panel opened on a log of 100 lines shows 102 after two records. *)
Example log_panel_grows_past_limit :
  let text := join (replicate 100 (String.append "line" nl)) in
  ∃ w, _setup_log_text (Some text) = inr w ∧
       length (readlines (contents w)) = MAX_LOG_LINES ∧
       length (readlines (contents (emit_all ["started"; "stopped"] w))) = 102.
Proof. eexists. split; [reflexivity|]. split; vm_compute; reflexivity. Qed.

End LogPanel.

(** ** The search box and its placeholder

    [_create_search_entry], [on_entry_click], [on_key_press], [on_focusout]
    and [create_file_config_panel]. *)
Module SearchBox.

Import Dict Gui Panel.

(** ['Search for files...'] *)
Definition placeholder : string := "Search for files...".

(** The entry over the panel: its text is [self.search_var], [fg] its
    colour, and [traced] tells whether the write trace that runs
    [delayed_search] has been added to the variable. *)
Record search_box := mkBox {
  panel : gui;
  fg : string;
  traced : bool;
}.

(** [self.search_entry.get()] *)
Definition entry_get (b : search_box) : string := search_var (panel b).

(** The entry writes its text to [self.search_var]; a write runs the trace
    once it is there. *)
Definition var_write (s : string) (b : search_box) : search_box :=
  if traced b then mkBox (search_var_set s (panel b)).1 (fg b) true
  else mkBox (with_search_var s (panel b)) (fg b) false.

(** [self.search_entry.delete(0, "end")]: nothing to delete, nothing
    written. *)
Definition entry_delete_all (b : search_box) : search_box :=
  if decide (entry_get b = EmptyString) then b else var_write EmptyString b.

(** [self.search_entry.insert(0, s)] *)
Definition entry_insert_0 (s : string) (b : search_box) : search_box :=
  if decide (s = EmptyString) then b
  else var_write (String.append s (entry_get b)) b.

(** [self.search_entry.config(fg=colour)] *)
Definition config_fg (colour : string) (b : search_box) : search_box :=
  mkBox (panel b) colour (traced b).

Section handlers.
(** [str.strip] and [str.lower]. *)
Variable strip : string → string.
Variable lower : string → string.

Definition on_entry_click (b : search_box) : search_box :=
  if decide (strip (entry_get b) = placeholder) then
    config_fg "black" (entry_delete_all b)
  else b.

Definition on_key_press (b : search_box) : search_box :=
  if decide (strip (entry_get b) = placeholder) then
    config_fg "black" (entry_delete_all b)
  else b.

Definition on_focusout (b : search_box) : search_box :=
  let current_text := entry_get b in
  if decide (current_text = EmptyString) then
    config_fg "grey" (entry_insert_0 placeholder b)
  else b.

(** [tk.Entry(parent, textvariable=self.search_var, fg='grey')], the
    placeholder inserted, the handlers bound, and only then the trace added
    to [self.search_var]. *)
Definition _create_search_entry (g : gui) : search_box :=
  let entry := mkBox g "grey" false in
  let entry := entry_insert_0 placeholder entry in
  mkBox (panel entry) (fg entry) true.

(** [create_file_config_panel], started by [__init__] with the manager's
    mapping, [self._after_id = None], a fresh [tk.StringVar] and an empty
    table; [on_disk] is what [file_config.csv] holds. *)
Definition create_file_config_panel (mapping : dict string)
    (on_disk : list (list string)) : search_box :=
  let self := mkGui mapping [] EmptyString None [] 0 on_disk in
  let b := _create_search_entry self in
  mkBox (load_file_config_data (panel b)).1 (fg b) (traced b).

(** The timer [i] fires. *)
Definition fire (i : nat) (b : search_box) : search_box :=
  mkBox (after_fire lower i (panel b)).1 (fg b) (traced b).

End handlers.

(** [str.strip] on ASCII white space, to run the handlers on concrete
    inputs. *)
Definition is_space (c : Ascii.ascii) : bool :=
  let n := Ascii.nat_of_ascii c in
  bool_decide (n = 32 ∨ (9 ≤ n ∧ n ≤ 13) ∨ (28 ≤ n ∧ n ≤ 31)).

Fixpoint str_lstrip (s : string) : string :=
  match s with
  | EmptyString => EmptyString
  | String c rest => if is_space c then str_lstrip rest else s
  end.

Fixpoint str_rstrip (s : string) : string :=
  match s with
  | EmptyString => EmptyString
  | String c rest =>
      match str_rstrip rest with
      | EmptyString => if is_space c then EmptyString else String c EmptyString
      | rest' => String c rest'
      end
  end.

Definition str_strip (s : string) : string := str_rstrip (str_lstrip s).

Example str_strip_example :
  str_strip "  Search for files... " = placeholder ∧ str_strip "  " = EmptyString ∧
  str_strip "a b" = "a b".
Proof. by vm_compute. Qed.

Lemma var_write_traced s (b : search_box) :
  traced b = true → debounced (panel b) →
  entry_get (var_write s b) = s ∧
  fg (var_write s b) = fg b ∧
  traced (var_write s b) = true ∧
  pending (panel (var_write s b)) = [next_after (panel b)] ∧
  FILE_PATHS (panel (var_write s b)) = FILE_PATHS (panel b) ∧
  table (panel (var_write s b)) = table (panel b).
Proof.
  intros Ht Hd. unfold var_write. rewrite Ht. unfold entry_get. simpl.
  pose proof (delayed_search_pending (with_search_var s (panel b)) Hd) as Hp.
  unfold search_var_set. munfold. by rewrite Hp.
Qed.

Lemma fire_pending lower i (b : search_box) :
  pending (panel b) = [i] →
  table (panel (fire lower i b))
    = filter (matches lower (lower (entry_get b))) (items (FILE_PATHS (panel b))) ∧
  entry_get (fire lower i b) = entry_get b ∧
  fg (fire lower i b) = fg b.
Proof.
  intros Hp. unfold fire, entry_get, after_fire. munfold. rewrite Hp.
  rewrite decide_True by apply list_elem_of_here.
  by rewrite search_files_spec.
Qed.

Lemma entry_get_config_fg c (b : search_box) : entry_get (config_fg c b) = entry_get b.
Proof. reflexivity. Qed.

Lemma panel_config_fg c (b : search_box) : panel (config_fg c b) = panel b.
Proof. reflexivity. Qed.

Lemma placeholder_nonempty : placeholder ≠ EmptyString.
Proof. done. Qed.

(** X14.  A click or a key press in the search box while it shows the
    placeholder (white space around it does not count) empties the box,
    turns its text black and schedules a search for the empty term, which
    shows the whole mapping when it runs; until then the table is as it was.
    With any other text in the box, a click or a key press changes and
    schedules nothing. *)
Theorem click_on_placeholder_clears_box strip lower (b : search_box) :
  strip EmptyString = EmptyString → lower EmptyString = EmptyString →
  traced b = true → debounced (panel b) →
  strip (entry_get b) = placeholder →
  let b1 := on_entry_click strip b in
  on_key_press strip b = b1 ∧
  entry_get b1 = EmptyString ∧ fg b1 = "black" ∧
  pending (panel b1) = [next_after (panel b)] ∧
  table (panel b1) = table (panel b) ∧
  table (panel (fire lower (next_after (panel b)) b1)) = items (FILE_PATHS (panel b)) ∧
  (∀ b', strip (entry_get b') ≠ placeholder →
     on_entry_click strip b' = b' ∧ on_key_press strip b' = b').
Proof.
  intros Hstrip Hlower Ht Hd Hph b1.
  assert (entry_get b ≠ EmptyString) as Hne.
  { intros E. rewrite E, Hstrip in Hph. by apply placeholder_nonempty. }
  assert (b1 = config_fg "black" (var_write EmptyString b)) as ->.
  { subst b1. unfold on_entry_click, entry_delete_all.
    by rewrite decide_True, decide_False. }
  destruct (var_write_traced EmptyString b Ht Hd) as (H1 & H2 & H3 & H4 & H5 & H6).
  split_and!; try done.
  - unfold on_key_press, entry_delete_all. by rewrite decide_True, decide_False.
  - destruct (fire_pending lower (next_after (panel b))
                (config_fg "black" (var_write EmptyString b)) H4) as [-> _].
    rewrite entry_get_config_fg, panel_config_fg, H1, H5, Hlower.
    apply filter_all, matches_empty.
  - intros b' Hb'. unfold on_entry_click, on_key_press. by rewrite decide_False.
Qed.

Definition typed_nothing_yet : search_box :=
  create_file_config_panel (FILE_PATHS two_files) [].

Lemma click_on_placeholder_clears_box_witness :
  (str_strip EmptyString = EmptyString ∧ str_lower EmptyString = EmptyString ∧
   str_strip (entry_get typed_nothing_yet) = placeholder) ∧
  table (panel (fire str_lower 0 (on_entry_click str_strip typed_nothing_yet)))
  = items (FILE_PATHS two_files).
Proof.
  split; [split_and!; reflexivity|].
  assert (debounced (panel typed_nothing_yet)) as Hd.
  { split; [simpl; lia|]. intros i Hi. by apply elem_of_nil in Hi. }
  exact (proj1 (proj2 (proj2 (proj2 (proj2 (proj2
    (click_on_placeholder_clears_box str_strip str_lower typed_nothing_yet
       eq_refl eq_refl eq_refl Hd eq_refl))))))).
Defined.

(** X15.  When the focus leaves the search box while it is empty, the
    placeholder is put into the box, in grey, and, being written to
    [search_var], it schedules a search like any typed text: when that
    search runs the table keeps only the rows whose lowercased path or
    directory contains the lowercased placeholder, and is empty when there
    are none.  When the box is not empty, losing the focus changes and
    schedules nothing. *)
Theorem focus_out_on_empty_box_searches_placeholder lower (b : search_box) :
  traced b = true → debounced (panel b) →
  entry_get b = EmptyString →
  let b1 := on_focusout b in
  let searched := fire lower (next_after (panel b)) b1 in
  entry_get b1 = placeholder ∧ fg b1 = "grey" ∧
  pending (panel b1) = [next_after (panel b)] ∧
  table (panel searched)
    = filter (matches lower (lower placeholder)) (items (FILE_PATHS (panel b))) ∧
  ((∀ row, row ∈ items (FILE_PATHS (panel b)) →
           matches lower (lower placeholder) row = false) →
   table (panel searched) = []) ∧
  (∀ b', entry_get b' ≠ EmptyString → on_focusout b' = b').
Proof.
  intros Ht Hd Hempty b1 searched.
  assert (b1 = config_fg "grey" (var_write placeholder b)) as Hb1.
  { subst b1. unfold on_focusout, entry_insert_0. cbv zeta.
    rewrite decide_True by done. rewrite decide_False by apply placeholder_nonempty.
    by rewrite Hempty, LogPanel.append_nil_r. }
  destruct (var_write_traced placeholder b Ht Hd) as (H1 & H2 & H3 & H4 & H5 & H6).
  assert (table (panel searched)
          = filter (matches lower (lower placeholder)) (items (FILE_PATHS (panel b))))
    as Htable.
  { subst searched. rewrite Hb1.
    destruct (fire_pending lower (next_after (panel b))
                (config_fg "grey" (var_write placeholder b)) H4) as [-> _].
    by rewrite entry_get_config_fg, panel_config_fg, H1, H5. }
  split_and!.
  - by rewrite Hb1.
  - by rewrite Hb1.
  - by rewrite Hb1.
  - done.
  - intros Hnone. rewrite Htable. clear -Hnone.
    induction (items (FILE_PATHS (panel b))) as [|row rows IH]; [done|].
    rewrite filter_cons, (Hnone row) by left. simpl.
    apply IH. intros r Hr. apply Hnone. by right.
  - intros b' Hb'. unfold on_focusout. cbv zeta. by rewrite decide_False.
Qed.

Lemma focus_out_on_empty_box_searches_placeholder_witness :
  entry_get (on_entry_click str_strip typed_nothing_yet) = EmptyString ∧
  table (panel (fire str_lower 1
                  (on_focusout (on_entry_click str_strip typed_nothing_yet))))
  = filter (matches str_lower (str_lower placeholder)) (items (FILE_PATHS two_files)).
Proof.
  split; [reflexivity|].
  assert (debounced (panel (on_entry_click str_strip typed_nothing_yet))) as Hd.
  { split; [simpl; lia|]. intros i Hi. apply list_elem_of_singleton in Hi. by subst. }
  exact (proj1 (proj2 (proj2 (proj2
    (focus_out_on_empty_box_searches_placeholder str_lower
       (on_entry_click str_strip typed_nothing_yet) eq_refl Hd eq_refl))))).
Defined.

(** X16.  The window opens with the whole mapping in the table, the
    placeholder in the search box, in grey, and no search pending: the
    placeholder is inserted before the trace is added.  A click into the box
    followed by leaving it without typing brings the placeholder back and,
    once the timer has fired, leaves in the table only the rows that contain
    the placeholder text, whether or not the search scheduled by the click
    had run in between. *)
Theorem click_and_leave_filters_by_placeholder strip lower
    (mapping : dict string) (on_disk : list (list string)) :
  strip placeholder = placeholder →
  let opened := create_file_config_panel mapping on_disk in
  let clicked := on_entry_click strip opened in
  table (panel opened) = items mapping ∧
  entry_get opened = placeholder ∧ fg opened = "grey" ∧
  pending (panel opened) = [] ∧ _after_id (panel opened) = None ∧
  on_focusout opened = opened ∧
  table (panel (fire lower 1 (on_focusout clicked)))
    = filter (matches lower (lower placeholder)) (items mapping) ∧
  table (panel (fire lower 1 (on_focusout (fire lower 0 clicked))))
    = filter (matches lower (lower placeholder)) (items mapping) ∧
  entry_get (fire lower 1 (on_focusout clicked)) = placeholder ∧
  FILE_PATHS (panel (fire lower 1 (on_focusout clicked))) = mapping.
Proof.
  intros Hstrip opened clicked.
  assert (opened = mkBox (mkGui mapping (items mapping) placeholder None [] 0 on_disk)
                         "grey" true) as Hopened.
  { subst opened. unfold create_file_config_panel, _create_search_entry. cbv zeta.
    unfold entry_insert_0, var_write. simpl.
    by rewrite load_file_config_data_spec. }
  assert (clicked = mkBox (mkGui mapping (items mapping) EmptyString (Some 0) [0] 1
                             on_disk) "black" true) as Hclicked.
  { subst clicked. rewrite Hopened. unfold on_entry_click, entry_delete_all, entry_get.
    simpl. by rewrite Hstrip. }
  rewrite Hclicked, Hopened.
  split_and!; try done.
  - unfold fire, on_focusout, entry_insert_0, var_write, after_fire. simpl. munfold.
    by rewrite search_files_spec.
  - unfold fire, on_focusout, entry_insert_0, var_write, after_fire. simpl. munfold.
    rewrite search_files_spec. simpl. by rewrite search_files_spec.
  - unfold fire, on_focusout, entry_insert_0, var_write, after_fire, entry_get.
    simpl. munfold. by rewrite search_files_spec.
  - unfold fire, on_focusout, entry_insert_0, var_write, after_fire.
    simpl. munfold. by rewrite search_files_spec.
Qed.

Lemma click_and_leave_filters_by_placeholder_witness :
  str_strip placeholder = placeholder ∧
  table (panel (fire str_lower 1
    (on_focusout (on_entry_click str_strip
       (create_file_config_panel (FILE_PATHS two_files) [])))))
  = [].
Proof.
  split; [reflexivity|].
  pose proof (click_and_leave_filters_by_placeholder str_strip str_lower
                (FILE_PATHS two_files) [] eq_refl) as H.
  cbv zeta in H. destruct H as (_ & _ & _ & _ & _ & _ & H7 & _).
  rewrite H7. reflexivity.
Defined.

End SearchBox.

(** ** Rows and selection *)
Module Rows.

Import Dict Gui Panel.


Lemma run_action_shown lower a (g : gui) :
  io_ok a = true → shown_in_mapping g → shown_in_mapping (run_action lower a g).1.
Proof.
  intros Ha Hs. unfold shown_in_mapping in *.
  destruct (run_action_cases lower a g) as (_ & _ & Hc). cbv zeta in Hc.
  destruct (Hc Ha) as [(Hf & _ & Ht)|[_ Ht]]; [|by rewrite Ht].
  rewrite Hf. destruct (is_search a) eqn:Ea; [|by rewrite Ht].
  destruct (search_action_table lower a g Ea) as [->|[P ->]]; [done|].
  apply sublist_filter.
Qed.

(** X17.  No path is shown twice: when the mapping has one entry per path
    and the table shows rows of the mapping, then, as long as the
    configuration file can be written, after every sequence of callbacks the
    paths of the table's rows are pairwise distinct, so a selected row names
    one entry, and each row carries the directory the mapping has for its
    path. *)
Theorem table_shows_each_path_once lower (acts : list action) (g : gui) :
  NoDup (keys (FILE_PATHS g)) → shown_in_mapping g →
  Forall (λ a, io_ok a = true) acts →
  NoDup (table (mainloop lower acts g)).*1 ∧
  ∀ path dir, (path, dir) ∈ table (mainloop lower acts g) →
              getitem path (FILE_PATHS (mainloop lower acts g)) = Some dir.
Proof.
  intros Hnd Hs Hio.
  assert (NoDup (keys (FILE_PATHS (mainloop lower acts g))) ∧
          shown_in_mapping (mainloop lower acts g)) as [Hnd' Hs'].
  { revert g Hnd Hs. induction Hio as [|a acts Ha _ IH]; intros g Hnd Hs; [done|].
    rewrite mainloop_cons. apply IH.
    - destruct (run_action_FILE_PATHS lower a g) as [->|[(k & v & ->)|(k & ->)]];
        auto using NoDup_setitem, NoDup_remove.
    - by apply run_action_shown. }
  split.
  - eapply sublist_NoDup; [exact Hnd'|]. by apply fmap_sublist.
  - intros path dir Hin. apply elem_getitem; [done|].
    eapply elem_of_sublist; [exact Hin|]. exact Hs'.
Qed.

Lemma table_shows_each_path_once_witness :
  (NoDup (keys (FILE_PATHS two_files)) ∧ shown_in_mapping two_files) ∧
  NoDup (table (mainloop str_lower
    [Add "/src/main.py" (Some "revs/main") true; TypeSearch "revs"; Fire 0;
     Edit [1] (Some "revs/m2") true] two_files)).*1.
Proof.
  assert (NoDup (keys (FILE_PATHS two_files))) as H.
  { apply (bool_decide_unpack _). vm_compute. exact I. }
  assert (shown_in_mapping two_files) as Hs by (unfold shown_in_mapping; reflexivity).
  split; [by split|].
  refine (proj1 (table_shows_each_path_once str_lower _ two_files H Hs _)).
  repeat constructor.
Defined.

End Rows.
